(** * Gestor de tareas con prioridades ([gestion_tareas.py])

    A shallow embedding of the class [GestorTareas]: a binary heap of
    tasks kept in a Python list and handled with [heapq], a set of
    completed task names, and a JSON file that holds the heap array.

    Conventions of the embedding.
    - A Python [str] is a [string]; each character stands for one code
      point below 256, and strings are ordered by code point as Python
      orders them.
    - A task is the 4-element sequence [(prioridad, fecha, nombre,
      dependencias)].  [añadir_tarea] and [completar_tarea] build it as a
      tuple, [json.load] returns it as a list: the field [clase] keeps
      which one it is, because Python refuses to order a tuple against a
      list ([TypeError]) and never finds them equal.
    - [heapq], [json] and [datetime] are Python's own; they are modelled
      after CPython 3.11.  [heapq] is the accelerated implementation
      CPython loads ([_heapq]): every step of a sift exchanges two slots
      of the list.
    - The file is part of the state: it is absent, or holds the JSON
      text of an array of tasks, or holds text that is not JSON.  It can
      always be opened.  [json] writes and reads an [int] of at most
      4300 digits (the limit of CPython on the conversion between [int]
      and decimal text) and raises [ValueError] on a longer one.
    - A method that prints is modelled by the value it prints; an
      exception is a value [Raise e] returned next to the state the
      exception leaves behind. *)

From Stdlib Require Import ZArith Lia ZifyNat Ascii String.
From stdpp Require Import base decidable list sorting gmap strings.

Local Open Scope Z_scope.
Local Open Scope nat_scope.

(** ** Exceptions and results *)

(** What raised the [ValueError]: one of the checks of [añadir_tarea],
    or [json] while it writes or reads the file. *)
Inductive origen_valor :=
| NombreVacio          (* "El nombre de la tarea no puede estar vacío." *)
| PrioridadNoEntera    (* "La prioridad debe ser un número entero." *)
| FechaInvalida        (* raised by datetime.strptime *)
| EnteroDemasiadoLargo (* "Exceeds the limit (4300 digits) for integer string
                          conversion", raised under json.dump and json.load *)
| JSONDecodeError.     (* json.JSONDecodeError, a subclass of ValueError *)

Inductive excepcion :=
| ValueError (o : origen_valor)
| TypeError
| IndexError.

Inductive resultado (A : Type) :=
| Ok (a : A)
| Raise (e : excepcion).
Arguments Ok {A} a.
Arguments Raise {A} e.

(** ** Total orders given by a three-way comparison *)

Class OrdenTotal {A : Type} (cmp : A → A → comparison) := {
  cmp_eq_iff : ∀ x y, cmp x y = Eq ↔ x = y;
  cmp_antisym : ∀ x y, cmp y x = CompOpp (cmp x y);
  cmp_lt_trans : ∀ x y z, cmp x y = Lt → cmp y z = Lt → cmp x z = Lt
}.
Arguments cmp_eq_iff {A} cmp {_} x y.
Arguments cmp_antisym {A} cmp {_} x y.
Arguments cmp_lt_trans {A} cmp {_} x y z.

(** Python compares two sequences by their first differing position,
    and by length when one is a prefix of the other. *)
Fixpoint lex_compare {A} (cmp : A → A → comparison) (l1 l2 : list A) : comparison :=
  match l1, l2 with
  | [], [] => Eq
  | [], _ :: _ => Lt
  | _ :: _, [] => Gt
  | x :: l1, y :: l2 =>
    match cmp x y with
    | Eq => lex_compare cmp l1 l2
    | c => c
    end
  end.

(** The same rule for two components of a fixed-length sequence. *)
Definition seguido (c1 c2 : comparison) : comparison :=
  match c1 with Eq => c2 | _ => c1 end.

Definition par_compare {A B} (ca : A → A → comparison) (cb : B → B → comparison)
    (p q : A * B) : comparison :=
  seguido (ca p.1 q.1) (cb p.2 q.2).

Definition es_lt (c : comparison) : bool :=
  match c with Lt => true | _ => false end.

Definition es_le (c : comparison) : bool :=
  match c with Gt => false | _ => true end.

(** ** Python strings: [str.strip] *)

(** The code points below 256 for which [str.isspace] holds. *)
Definition isspace (c : ascii) : bool :=
  let n := N_of_ascii c in
  ((9 <=? n) && (n <=? 13) || (28 <=? n) && (n <=? 32) || (n =? 133) || (n =? 160))%N.

Fixpoint lstrip (s : string) : string :=
  match s with
  | EmptyString => EmptyString
  | String c s' => if isspace c then lstrip s' else s
  end.

Fixpoint rstrip (s : string) : string :=
  match s with
  | EmptyString => EmptyString
  | String c s' =>
    match rstrip s' with
    | EmptyString => if isspace c then EmptyString else String c EmptyString
    | r => String c r
    end
  end.

Definition strip (s : string) : string := rstrip (lstrip s).

(** A name that is empty or made of white space only. *)
Fixpoint en_blanco (s : string) : bool :=
  match s with
  | EmptyString => true
  | String c s' => isspace c && en_blanco s'
  end.

(** Truth value of a [str]: the empty string is false. *)
Definition str_bool (s : string) : bool :=
  match s with EmptyString => false | _ => true end.

(** ** Tasks *)

Inductive contenedor := Tupla | Lista.

Global Instance contenedor_eq_dec : EqDecision contenedor.
Proof. solve_decision. Defined.

(** The four positions of a task, as the JSON document stores them. *)
Definition campos : Type := Z * string * string * list string.

Record tarea := mk_tarea {
  clase : contenedor;
  prioridad : Z;              (* tarea[0] *)
  fecha : string;             (* tarea[1] *)
  nombre : string;            (* tarea[2] *)
  dependencias : list string  (* tarea[3] *)
}.

Definition campos_de (t : tarea) : campos :=
  (prioridad t, fecha t, nombre t, dependencias t).

Definition de_campos (k : contenedor) (c : campos) : tarea :=
  let '(p, f, n, d) := c in mk_tarea k p f n d.

(** Three-way comparison of the four positions, left to right. *)
Definition campos_compare : campos → campos → comparison :=
  par_compare (par_compare (par_compare Z.compare String.compare) String.compare)
              (lex_compare String.compare).

Definition tarea_compare (a b : tarea) : comparison :=
  campos_compare (campos_de a) (campos_de b).

(** [a < b] on tasks: defined between two tuples and between two lists. *)
Definition tarea_lt (a b : tarea) : resultado bool :=
  if decide (clase a = clase b) then Ok (es_lt (tarea_compare a b))
  else Raise TypeError.

(** The key [mezclar] compares: [(tarea[0], tarea[1])]. *)
Definition clave (t : tarea) : Z * string := (prioridad t, fecha t).

Definition clave_compare : Z * string → Z * string → comparison :=
  par_compare Z.compare String.compare.

(** [(a[0], a[1]) <= (b[0], b[1])] *)
Definition clave_le (a b : tarea) : bool :=
  es_le (clave_compare (clave a) (clave b)).

(** ** [heapq] on a Python list *)

Section Heapq.
Context {A : Type} (lt : A → A → resultado bool).

(** Exchange of the slots [i] and [j]. *)
Definition swap (arr : list A) (i j : nat) : list A :=
  match arr !! i, arr !! j with
  | Some x, Some y => <[i:=y]> (<[j:=x]> arr)
  | _, _ => arr
  end.

(** [siftdown]: follow the path to the root, moving the parents down
    until the new item fits.  [fuel] bounds the number of rounds; [pos]
    rounds always suffice, since each round moves to the parent. *)
Fixpoint siftdown_loop (fuel : nat) (arr : list A) (startpos pos : nat)
    : list A * resultado unit :=
  match fuel with
  | 0 => (arr, Ok tt)
  | S fuel =>
    if decide (startpos < pos) then
      let parentpos := (pos - 1) / 2 in
      match arr !! pos, arr !! parentpos with
      | Some newitem, Some parent =>
        match lt newitem parent with
        | Raise e => (arr, Raise e)
        | Ok false => (arr, Ok tt)
        | Ok true => siftdown_loop fuel (swap arr parentpos pos) startpos parentpos
        end
      | _, _ => (arr, Raise IndexError)
      end
    else (arr, Ok tt)
  end.

Definition siftdown (arr : list A) (startpos pos : nat) : list A * resultado unit :=
  if decide (length arr ≤ pos) then (arr, Raise IndexError)
  else siftdown_loop pos arr startpos pos.

(** First loop of [siftup]: bubble the smaller child up until hitting a
    leaf; the result is the position of that leaf. *)
Fixpoint siftup_loop (fuel : nat) (arr : list A) (pos : nat)
    : list A * resultado nat :=
  match fuel with
  | 0 => (arr, Ok pos)
  | S fuel =>
    let endpos := length arr in
    if decide (pos < endpos / 2) then
      let childpos := 2 * pos + 1 in
      if decide (childpos + 1 < endpos) then
        match arr !! childpos, arr !! (childpos + 1) with
        | Some a, Some b =>
          match lt a b with
          | Raise e => (arr, Raise e)
          | Ok cmp =>
            let childpos := if cmp then childpos else childpos + 1 in
            siftup_loop fuel (swap arr childpos pos) childpos
          end
        | _, _ => (arr, Raise IndexError)
        end
      else siftup_loop fuel (swap arr childpos pos) childpos
    else (arr, Ok pos)
  end.

Definition siftup (arr : list A) (pos : nat) : list A * resultado unit :=
  if decide (length arr ≤ pos) then (arr, Raise IndexError)
  else
    match siftup_loop (length arr) arr pos with
    | (arr', Ok pos') => siftdown arr' pos pos'
    | (arr', Raise e) => (arr', Raise e)
    end.

Definition heappush (heap : list A) (item : A) : list A * resultado unit :=
  siftdown (heap ++ [item]) 0 (length heap).

Definition heappop (heap : list A) : list A * resultado A :=
  match heap !! (length heap - 1) with
  | None => (heap, Raise IndexError)
  | Some lastelt =>
    match take (length heap - 1) heap with
    | [] => ([], Ok lastelt)
    | returnitem :: resto =>
      match siftup (lastelt :: resto) 0 with
      | (heap', Ok _) => (heap', Ok returnitem)
      | (heap', Raise e) => (heap', Raise e)
      end
    end
  end.

(** [heapify_loop i] runs [siftup] at [i - 1], ..., [0].  (For a list
    of more than 2500 items CPython takes the positions in another
    order, each one still after its children.) *)
Fixpoint heapify_loop (i : nat) (heap : list A) : list A * resultado unit :=
  match i with
  | 0 => (heap, Ok tt)
  | S i' =>
    match siftup heap i' with
    | (heap', Ok _) => heapify_loop i' heap'
    | (heap', Raise e) => (heap', Raise e)
    end
  end.

Definition heapify (heap : list A) : list A * resultado unit :=
  heapify_loop (length heap / 2) heap.

End Heapq.

(** ** Merge sort *)

Fixpoint mezclar (izquierda derecha : list tarea) : list tarea :=
  match izquierda with
  | [] => derecha
  | x :: izquierda' =>
    (fix mezclar_derecha (derecha : list tarea) : list tarea :=
       match derecha with
       | [] => izquierda
       | y :: derecha' =>
         if clave_le x y then x :: mezclar izquierda' derecha
         else y :: mezclar_derecha derecha'
       end) derecha
  end.

(** [fuel] bounds the depth of the recursion; the length of the list
    always suffices, since both halves are shorter. *)
Fixpoint merge_sort_rec (fuel : nat) (lista : list tarea) : list tarea :=
  if decide (length lista ≤ 1) then lista
  else
    match fuel with
    | 0 => lista
    | S fuel =>
      let mitad := length lista / 2 in
      let izquierda := merge_sort_rec fuel (take mitad lista) in
      let derecha := merge_sort_rec fuel (drop mitad lista) in
      mezclar izquierda derecha
    end.

Definition merge_sort (lista : list tarea) : list tarea :=
  merge_sort_rec (length lista) lista.

(** ** [datetime.strptime(s, "%Y-%m-%d")] and [datetime.isoformat] *)

Definition digito (c : ascii) : option Z :=
  let n := N_of_ascii c in
  if ((48 <=? n) && (n <=? 57))%N then Some (Z.of_N n - 48)%Z else None.

Definition entre (lo hi : Z) (c : ascii) : option Z :=
  match digito c with
  | Some v => if ((lo <=? v) && (v <=? hi))%Z then Some v else None
  | None => None
  end.

(** The alternatives of the directive [%m], [1[0-2]|0[1-9]|[1-9]], that
    match a prefix of [s], in the order the regular expression tries
    them, each with the text that follows it. *)
Definition re_m (s : string) : list (Z * string) :=
  match s with
  | String a (String b r) =>
    match entre 1 1 a, entre 0 2 b with
    | Some _, Some v => [((10 + v)%Z, r)]
    | _, _ => []
    end ++
    match entre 0 0 a, entre 1 9 b with
    | Some _, Some v => [(v, r)]
    | _, _ => []
    end
  | _ => []
  end ++
  match s with
  | String a r => match entre 1 9 a with Some v => [(v, r)] | None => [] end
  | _ => []
  end.

(** The alternatives of [%d]: [3[0-1]|[1-2]\d|0[1-9]|[1-9]| [1-9]]. *)
Definition re_d (s : string) : list (Z * string) :=
  match s with
  | String a (String b r) =>
    match entre 3 3 a, entre 0 1 b with
    | Some _, Some v => [((30 + v)%Z, r)]
    | _, _ => []
    end ++
    match entre 1 2 a, entre 0 9 b with
    | Some u, Some v => [((10 * u + v)%Z, r)]
    | _, _ => []
    end ++
    match entre 0 0 a, entre 1 9 b with
    | Some _, Some v => [(v, r)]
    | _, _ => []
    end
  | _ => []
  end ++
  match s with
  | String a r => match entre 1 9 a with Some v => [(v, r)] | None => [] end
  | _ => []
  end ++
  match s with
  | String " " (String b r) =>
    match entre 1 9 b with Some v => [(v, r)] | None => [] end
  | _ => []
  end.

Definition tras_guion (s : string) : list string :=
  match s with
  | String "-" r => [r]
  | _ => []
  end.

(** All the ways [(\d\d\d\d)-(%m)-(%d)] matches a prefix of [s], in
    backtracking order: year, month, day and the unconverted rest.  The
    match the regular expression engine reports is the first one. *)
Definition re_fecha (s : string) : list (Z * Z * Z * string) :=
  match s with
  | String y1 (String y2 (String y3 (String y4 r))) =>
    match digito y1, digito y2, digito y3, digito y4 with
    | Some a, Some b, Some c, Some d =>
      let año := (1000 * a + 100 * b + 10 * c + d)%Z in
      r1 ← tras_guion r;
      '(mes, r2) ← re_m r1;
      r3 ← tras_guion r2;
      '(dia, r4) ← re_d r3;
      [(año, mes, dia, r4)]
    | _, _, _, _ => []
    end
  | _ => []
  end.

Definition bisiesto (año : Z) : bool :=
  ((año mod 4 =? 0) && (negb (año mod 100 =? 0) || (año mod 400 =? 0)))%Z.

Definition dias_del_mes (año mes : Z) : Z :=
  (if mes =? 2 then (if bisiesto año then 29 else 28)
   else if (mes =? 4) || (mes =? 6) || (mes =? 9) || (mes =? 11) then 30
   else 31)%Z.

(** [None] stands for the [ValueError] of [strptime]: no match,
    unconverted data, year 0, or a day the month does not have. *)
Definition strptime (s : string) : option (Z * Z * Z) :=
  match re_fecha s with
  | (año, mes, dia, EmptyString) :: _ =>
    if ((1 <=? año) && (dia <=? dias_del_mes año mes))%Z
    then Some (año, mes, dia) else None
  | _ => None
  end.

Definition cifra (n : Z) : ascii := ascii_of_N (Z.to_N (48 + n mod 10)).

(** ["%02d" % n] and ["%04d" % n] for [0 <= n] within the width. *)
Definition dos_cifras (n : Z) (s : string) : string :=
  String (cifra (n / 10)) (String (cifra n) s).

Definition cuatro_cifras (n : Z) (s : string) : string :=
  String (cifra (n / 1000)) (String (cifra (n / 100)) (dos_cifras n s)).

(** [datetime(año, mes, dia).isoformat()]: the time of day is midnight. *)
Definition isoformat (d : Z * Z * Z) : string :=
  let '(año, mes, dia) := d in
  cuatro_cifras año (String "-" (dos_cifras mes (String "-" (dos_cifras dia
    "T00:00:00")))).

(** The shape [YYYY-MM-DDT00:00:00]: ten digits and the separators of
    the ISO 8601 format of a date at midnight. *)
Definition forma_iso (s : string) : bool :=
  match s with
  | String y1 (String y2 (String y3 (String y4 (String "-"
      (String m1 (String m2 (String "-" (String d1 (String d2 r))))))))) =>
    forallb (λ c, match digito c with Some _ => true | None => false end)
            [y1; y2; y3; y4; m1; m2; d1; d2]
    && String.eqb r "T00:00:00"
  | _ => false
  end.

(** ** The task manager *)

(** The tuple [completar_tarea] rebuilds from the four positions of a
    task, and the list that [json.load] returns for a task once dumped. *)
Definition a_tupla (t : tarea) : tarea := de_campos Tupla (campos_de t).

Definition a_lista (t : tarea) : tarea := de_campos Lista (campos_de t).

(** The value a caller may pass as [prioridad].  A [bool] is an [int]
    for [isinstance] and orders as 0 or 1: it is a [PyInt]. *)
Inductive pyobj :=
| PyInt (z : Z)
| PyFloat (mantisa exponente : Z)
| PyStr (s : string)
| PyNone.

(** The JSON document: an array of 4-element arrays
    [[int, str, str, [str, ...]]]. *)
Definition documento : Type := list campos.

(** What the file holds.  [Tareas d] is the JSON text of the document
    [d], the only text [json.dump] writes for a heap of tasks.
    [Ilegible] is any text that is not JSON, among them the empty file
    and the text cut short that a failed [json.dump] leaves.  JSON text
    of another shape (not an array of such 4-element arrays) is no value
    of this type: what is proved of a start speaks of the files that
    are absent, unreadable or a document of tasks. *)
Inductive contenido :=
| Tareas (d : documento)
| Ilegible.

Record GestorTareas := mk_gestor {
  heap : list tarea;
  tareas_completadas : gset string;
  archivo : option contenido   (* the file [archivo_persistencia]; [None]: no file *)
}.

(** The tasks the file holds, when it is a document. *)
Definition tareas_del_archivo (f : option contenido) : documento :=
  match f with Some (Tareas d) => d | _ => [] end.

(** CPython converts an [int] to decimal text, and decimal text to an
    [int], only up to [sys.get_int_max_str_digits()] digits, 4300 unless
    the user changes it; beyond, the conversion raises [ValueError]. *)
Definition max_str_digits : Z := 4300.

Definition demasiados_digitos (p : Z) : bool :=
  (10 ^ max_str_digits <=? Z.abs p)%Z.
Arguments demasiados_digitos : simpl never.

Definition prioridad_de (c : campos) : Z := c.1.1.1.

(** The priorities that [json] can write and read. *)
Definition prioridades_cortas (d : documento) : bool :=
  forallb (λ c, negb (demasiados_digitos (prioridad_de c))) d.

Definition con_heap (g : GestorTareas) (h : list tarea) : GestorTareas :=
  mk_gestor h (tareas_completadas g) (archivo g).

(** [json.dump]: tuples and lists are both written as arrays. *)
Definition json_dump (h : list tarea) : documento := campos_de <$> h.

(** [json.load]: every array is read as a list. *)
Definition json_load (d : documento) : list tarea := de_campos Lista <$> d.

(** [open(..., "w")] empties the file, then [json.dump] writes the
    array piece by piece.  It raises when it comes to a priority too
    long to be written: the file is left with the text written so far,
    which never closes the array. *)
Definition guardar_tareas (g : GestorTareas) : GestorTareas * resultado unit :=
  if prioridades_cortas (json_dump (heap g)) then
    (mk_gestor (heap g) (tareas_completadas g) (Some (Tareas (json_dump (heap g)))),
     Ok tt)
  else
    (mk_gestor (heap g) (tareas_completadas g) (Some Ilegible),
     Raise (ValueError EnteroDemasiadoLargo)).

(** Only [FileNotFoundError] is caught.  When [json.load] raises,
    [self.heap] has not been assigned. *)
Definition cargar_tareas (g : GestorTareas) : GestorTareas * resultado unit :=
  match archivo g with
  | Some (Tareas d) =>
    if prioridades_cortas d then
      let '(h, r) := heapify tarea_lt (json_load d) in (con_heap g h, r)
    else (g, Raise (ValueError EnteroDemasiadoLargo))
  | Some Ilegible => (g, Raise (ValueError JSONDecodeError))
  | None => (con_heap g [], Ok tt)
  end.

(** [GestorTareas(archivo_persistencia)], given the state of the file.
    When the result is [Raise e] the constructor has raised and there
    is no manager; the state next to it is what [self] held then. *)
Definition nuevo_gestor (f : option contenido) : GestorTareas * resultado unit :=
  cargar_tareas (mk_gestor [] ∅ f).

Definition añadir_tarea (g : GestorTareas) (nombre : string) (prioridad : pyobj)
    (fecha_vencimiento : string) (dependencias : list string)
    : GestorTareas * resultado unit :=
  if negb (str_bool (strip nombre)) then (g, Raise (ValueError NombreVacio))
  else
    match prioridad with
    | PyInt p =>
      match strptime fecha_vencimiento with
      | None => (g, Raise (ValueError FechaInvalida))
      | Some d =>
        let fecha := isoformat d in
        let tarea := mk_tarea Tupla p fecha nombre dependencias in
        match heappush tarea_lt (heap g) tarea with
        | (h, Ok _) => guardar_tareas (con_heap g h)
        | (h, Raise e) => (con_heap g h, Raise e)
        end
      end
    | _ => (g, Raise (ValueError PrioridadNoEntera))
    end.

(** The list that [mostrar_tareas_pendientes] prints, line by line. *)
Definition mostrar_tareas_pendientes (g : GestorTareas) : list tarea :=
  merge_sort (heap g).

(** The loop of [completar_tarea].  It ends with the heap empty, or
    with the exception of a [heappop] and the heap as that left it. *)
Fixpoint completar_loop (fuel : nat) (h : list tarea) (nombre_buscado : string)
    (tarea_encontrada : bool) (nuevas_tareas : list tarea) (completadas : gset string)
    : list tarea * gset string * resultado (bool * list tarea) :=
  match h with
  | [] => (h, completadas, Ok (tarea_encontrada, nuevas_tareas))
  | _ :: _ =>
    match fuel with
    | 0 => (h, completadas, Ok (tarea_encontrada, nuevas_tareas))
    | S fuel =>
      match heappop tarea_lt h with
      | (h', Raise e) => (h', completadas, Raise e)
      | (h', Ok t) =>
        if decide (nombre t = nombre_buscado) then
          completar_loop fuel h' nombre_buscado true nuevas_tareas
                         ({[nombre_buscado]} ∪ completadas)
        else
          completar_loop fuel h' nombre_buscado tarea_encontrada
                         (nuevas_tareas ++ [a_tupla t])
                         completadas
      end
    end
  end.

(** The result is [tarea_encontrada]: which of the two messages is
    printed. *)
Definition completar_tarea (g : GestorTareas) (nombre_buscado : string)
    : GestorTareas * resultado bool :=
  match completar_loop (length (heap g)) (heap g) nombre_buscado false []
                       (tareas_completadas g) with
  | (h, completadas, Raise e) => (mk_gestor h completadas (archivo g), Raise e)
  | (_, completadas, Ok (tarea_encontrada, nuevas_tareas)) =>
    match heapify tarea_lt nuevas_tareas with
    | (h, Raise e) => (mk_gestor h completadas (archivo g), Raise e)
    | (h, Ok _) =>
      match guardar_tareas (mk_gestor h completadas (archivo g)) with
      | (g', Ok _) => (g', Ok tarea_encontrada)
      | (g', Raise e) => (g', Raise e)
      end
    end
  end.

(** [all(dep in self.tareas_completadas for dep in dependencias)] *)
Definition ejecutable (completadas : gset string) (t : tarea) : bool :=
  forallb (λ dep, bool_decide (dep ∈ completadas)) (dependencias t).

(** The loop of [obtener_tarea_mayor_prioridad].  Besides the heap and
    the answer, it reports the tasks it popped, oldest first (a ghost
    value: the program keeps no such list).  A [heappop] that raises
    has taken the first task out of the list by then: it is counted. *)
Fixpoint obtener_loop (fuel : nat) (h : list tarea) (completadas : gset string)
    (retiradas : list tarea) : list tarea * list tarea * resultado (option tarea) :=
  match h with
  | [] => (h, retiradas, Ok None)
  | t :: _ =>
    if ejecutable completadas t then (h, retiradas, Ok (Some t))
    else
      match fuel with
      | 0 => (h, retiradas, Ok None)
      | S fuel =>
        match heappop tarea_lt h with
        | (h', Raise e) => (h', retiradas ++ [t], Raise e)
        | (h', Ok r) => obtener_loop fuel h' completadas (retiradas ++ [r])
        end
      end
  end.

(** The result is [Some t] when the task [t] is announced, [None] when
    the message "No hay tareas disponibles o ejecutables" is printed. *)
Definition obtener_tarea_mayor_prioridad (g : GestorTareas)
    : GestorTareas * resultado (option tarea) :=
  let '(h, _, r) :=
    obtener_loop (length (heap g)) (heap g) (tareas_completadas g) [] in
  (con_heap g h, r).

Definition retiradas_por_obtener (g : GestorTareas) : list tarea :=
  (obtener_loop (length (heap g)) (heap g) (tareas_completadas g) []).1.2.

(** ** The invariant of the heap *)

(** [heap[i] <= heap[2*i+1]] and [heap[i] <= heap[2*i+2]] for every
    position [i] from [s] on; [s = 0] is the invariant of [heapq]. *)
Definition heap_desde {A} (R : A → A → Prop) (s : nat) (arr : list A) : Prop :=
  ∀ i j x y, s ≤ i → j = 2 * i + 1 ∨ j = 2 * i + 2 →
    arr !! i = Some x → arr !! j = Some y → R x y.

(** The order of the heap, for items compared through a key. *)
Definition ord_le {A K} (key : A → K) (cmp : K → K → comparison) (x y : A) : Prop :=
  es_le (cmp (key x) (key y)) = true.

(** [p] lies in the subtree of the heap rooted at [s]. *)
Inductive desc (s : nat) : nat → Prop :=
| desc_refl : desc s s
| desc_hijo p c : desc s p → c = 2 * p + 1 ∨ c = 2 * p + 2 → desc s c.

(** The state of the list while a sift is at work on the slot [p]: a
    heap from [s] on, but nothing is known of the item at [p] against
    its parent or its children, while the parent of [p] is below the
    children of [p]. *)
Definition casi_heap {A K} (key : A → K) (cmp : K → K → comparison)
    (s p : nat) (arr : list A) : Prop :=
  (∀ i j x y, s ≤ i → j = 2 * i + 1 ∨ j = 2 * i + 2 → i ≠ p → j ≠ p →
     arr !! i = Some x → arr !! j = Some y → ord_le key cmp x y) ∧
  (∀ c u y, s < p → c = 2 * p + 1 ∨ c = 2 * p + 2 →
     arr !! ((p - 1) / 2) = Some u → arr !! c = Some y → ord_le key cmp u y).

(** The item at [p] is below its children. *)
Definition bajo_hijos {A K} (key : A → K) (cmp : K → K → comparison)
    (p : nat) (arr : list A) : Prop :=
  ∀ c v y, c = 2 * p + 1 ∨ c = 2 * p + 2 →
    arr !! p = Some v → arr !! c = Some y → ord_le key cmp v y.

(** [a <= b] on the four positions of two tasks. *)
Definition tarea_le (a b : tarea) : Prop := es_le (tarea_compare a b) = true.

Definition es_heap (h : list tarea) : Prop := heap_desde tarea_le 0 h.

(** The same, as a test that runs. *)
Definition es_heap_b (h : list tarea) : bool :=
  forallb (λ j, match h !! ((j - 1) / 2), h !! j with
                | Some x, Some y => es_le (tarea_compare x y)
                | _, _ => true
                end) (seq 1 (length h - 1)).

(** All the tasks are tuples, or all are lists: any two can be ordered. *)
Definition misma_clase (h : list tarea) : Prop :=
  ∃ k, Forall (λ t, clase t = k) h.

(** The state of a store that [heapq] can work on. *)
Definition bien_formado (g : GestorTareas) : Prop :=
  misma_clase (heap g) ∧ es_heap (heap g).

(** ** Sequences of calls *)

(** The arguments of a call of [añadir_tarea] with an [int] priority. *)
Record peticion := mk_peticion {
  p_nombre : string;
  p_prioridad : Z;
  p_fecha : string;
  p_dependencias : list string
}.

Definition añadir (g : GestorTareas) (p : peticion) : GestorTareas * resultado unit :=
  añadir_tarea g (p_nombre p) (PyInt (p_prioridad p)) (p_fecha p) (p_dependencias p).

(** The calls one after the other; an exception is reported to the
    user and the next call goes on from the state it left. *)
Definition añadir_todas (g : GestorTareas) (ps : list peticion) : GestorTareas :=
  foldl (λ g p, (añadir g p).1) g ps.


(** The task a valid call stores. *)
Definition registro (p : peticion) : tarea :=
  mk_tarea Tupla (p_prioridad p)
    (match strptime (p_fecha p) with Some d => isoformat d | None => EmptyString end)
    (p_nombre p) (p_dependencias p).

(** The calls that add no task. *)
Inductive operacion :=
| OpMostrar
| OpCompletar (nombre_buscado : string)
| OpObtener.

Definition ejecutar (g : GestorTareas) (op : operacion) : GestorTareas :=
  match op with
  | OpMostrar => g
  | OpCompletar n => (completar_tarea g n).1
  | OpObtener => (obtener_tarea_mayor_prioridad g).1
  end.

(** Ascending by the key [(prioridad, fecha)]: every task is below all
    the tasks after it. *)
Definition ordenada (l : list tarea) : Prop :=
  StronglySorted (λ a b, clave_le a b = true) l.

(** [salida] keeps, among the tasks of each key, the order of [entrada]. *)
Definition mismo_orden_por_clave (entrada salida : list tarea) : Prop :=
  ∀ k, filter (λ t, clave t = k) salida = filter (λ t, clave t = k) entrada.

(** ** The driver *)

(** [linea.split(",")]: the pieces between the commas, at least one. *)
Fixpoint split_coma (s : string) : list string :=
  match s with
  | EmptyString => [EmptyString]
  | String c s' =>
    if Ascii.eqb c "," then EmptyString :: split_coma s'
    else
      match split_coma s' with
      | pieza :: resto => String c pieza :: resto
      | [] => [String c EmptyString]
      end
  end.

(** The dependencies the driver passes to [añadir_tarea] for the line
    the user typed: [[dep.strip() for dep in linea.split(",") if dep.strip()]]. *)
Definition leer_dependencias (linea : string) : list string :=
  strip <$> filter (λ dep, str_bool (strip dep) = true) (split_coma linea).

(** A string without the separator of the dependencies. *)
Fixpoint sin_coma (s : string) : bool :=
  match s with
  | EmptyString => true
  | String c s' => negb (Ascii.eqb c ",") && sin_coma s'
  end.

(** A call of one of the four public methods. *)
Inductive llamada :=
| LlAñadir (nombre : string) (prioridad : pyobj) (fecha_vencimiento : string)
           (dependencias : list string)
| LlMostrar
| LlCompletar (nombre_buscado : string)
| LlObtener.

Definition excepcion_de {A} (r : resultado A) : option excepcion :=
  match r with Ok _ => None | Raise e => Some e end.

(** The state after the call and the exception it raised, if any. *)
Definition atender (g : GestorTareas) (ll : llamada) : GestorTareas * option excepcion :=
  match ll with
  | LlAñadir n p f d => let '(g', r) := añadir_tarea g n p f d in (g', excepcion_de r)
  | LlMostrar => (g, None)
  | LlCompletar n => let '(g', r) := completar_tarea g n in (g', excepcion_de r)
  | LlObtener =>
    let '(g', r) := obtener_tarea_mayor_prioridad g in (g', excepcion_de r)
  end.




(** The same test for the whole state. *)
Definition bien_formado_b (g : GestorTareas) : bool :=
  (forallb (λ t, bool_decide (clase t = Tupla)) (heap g)
   || forallb (λ t, bool_decide (clase t = Lista)) (heap g))
  && es_heap_b (heap g).

(** ** Example states *)

Definition gestor_vacio : GestorTareas := (nuevo_gestor None).1.

(** The scenario of two tasks: [B] is more urgent and waits for [A]. *)
Definition peticion_A : peticion := mk_peticion "A" 2 "2025-06-01" [].
Definition peticion_B : peticion := mk_peticion "B" 1 "2025-05-01" ["A"].
Definition peticion_C : peticion := mk_peticion "C" 3 "2025-07-01" ["B"].

Definition gestor_AB : GestorTareas :=
  añadir_todas gestor_vacio [peticion_A; peticion_B; peticion_C].

(** Two tasks of the same name, and a third one. *)
Definition gestor_AAB : GestorTareas :=
  añadir_todas gestor_vacio
    [peticion_A; mk_peticion "A" 1 "2025-04-01" []; peticion_B].

(** A store started on the file that a previous run left. *)
Definition documento_a : documento := [(5%Z, "2025-01-01T00:00:00", "a", [])]%string.

Definition gestor_cargado : GestorTareas :=
  (nuevo_gestor (Some (Tareas documento_a))).1.

(** Stores that a refused addition has left.  The manager starts on the
    file of a previous run; the addition raises [TypeError] in
    [heappush], which has appended the new tuple by then. *)
Definition documento_xz : documento :=
  [(5%Z, "2025-01-01T00:00:00", "x", []); (6%Z, "2025-01-01T00:00:00", "z", [])]%string.

Definition gestor_xzy : GestorTareas :=
  (añadir_tarea (nuevo_gestor (Some (Tareas documento_xz))).1
                "y" (PyInt 1) "2025-01-01" []).1.

Definition documento_nn : documento :=
  [(5%Z, "2025-01-01T00:00:00", "n", []); (6%Z, "2025-01-01T00:00:00", "n", [])]%string.

Definition gestor_nnx : GestorTareas :=
  (añadir_tarea (nuevo_gestor (Some (Tareas documento_nn))).1
                "x" (PyInt 1) "2025-01-01" []).1.

(** Three additions after a start on a file with the task ["b"], all
    of the priority and date of ["b"]: the first two raise [TypeError],
    the third finds a tuple to compare with, succeeds and writes the
    file. *)
Definition documento_b : documento := [(1%Z, "2025-05-01T00:00:00", "b", [])]%string.

Definition gestor_bace : GestorTareas :=
  añadir_todas (nuevo_gestor (Some (Tareas documento_b))).1
    [mk_peticion "a" 1 "2025-05-01" []; mk_peticion "c" 1 "2025-05-01" [];
     mk_peticion "e" 1 "2025-05-01" []].


(** * Properties *)

(** Arithmetic with the halving of positions is left to [lia]. *)
Ltac Zify.zify_post_hook ::= Z.div_mod_to_equations.

(** ** Orders *)

Section Orden.
Context {A : Type} (cmp : A → A → comparison) `{!OrdenTotal cmp}.

Lemma cmp_refl x : cmp x x = Eq.
Proof. by apply cmp_eq_iff. Qed.

End Orden.

Global Instance Z_orden : OrdenTotal Z.compare.
Proof.
  split.
  - apply Z.compare_eq_iff.
  - intros x y. apply Z.compare_antisym.
  - intros x y z. rewrite !Z.compare_lt_iff. lia.
Qed.

Global Instance ascii_orden : OrdenTotal Ascii.compare.
Proof.
  split.
  - intros x y. unfold Ascii.compare. rewrite N.compare_eq_iff. split.
    + intros H. rewrite <- (ascii_N_embedding x), <- (ascii_N_embedding y). by f_equal.
    + by intros ->.
  - intros x y. apply Ascii.compare_antisym.
  - intros x y z. unfold Ascii.compare. rewrite !N.compare_lt_iff. lia.
Qed.

Global Instance string_orden : OrdenTotal String.compare.
Proof.
  split.
  - intros x y. split; [apply String.compare_eq_iff|].
    intros ->. induction y as [|c y IH]; simpl; [done|].
    by rewrite (cmp_refl Ascii.compare).
  - intros x y. apply String.compare_antisym.
  - intros x. induction x as [|a x IH]; intros [|b y] [|c z]; simpl; try done.
    destruct (Ascii.compare a b) eqn:Hab; try done.
    + apply (cmp_eq_iff Ascii.compare) in Hab as ->.
      destruct (Ascii.compare b c); try done. apply IH.
    + destruct (Ascii.compare b c) eqn:Hbc; try done.
      * apply (cmp_eq_iff Ascii.compare) in Hbc as <-. by rewrite Hab.
      * by rewrite (cmp_lt_trans Ascii.compare _ _ _ Hab Hbc).
Qed.

Global Instance lex_orden {A} (cmp : A → A → comparison) `{!OrdenTotal cmp} :
  OrdenTotal (lex_compare cmp).
Proof.
  split.
  - intros x. induction x as [|a x IH]; intros [|b y]; simpl; try done.
    destruct (cmp a b) eqn:Hab.
    + apply (cmp_eq_iff cmp) in Hab as ->. rewrite IH.
      split; [by intros ->|by intros [=]].
    + split; [done|]. intros [= -> _]. by rewrite (cmp_refl cmp) in Hab.
    + split; [done|]. intros [= -> _]. by rewrite (cmp_refl cmp) in Hab.
  - intros x. induction x as [|a x IH]; intros [|b y]; simpl; try done.
    rewrite (cmp_antisym cmp a b). destruct (cmp a b); simpl; auto.
  - intros x. induction x as [|a x IH]; intros [|b y] [|c z]; simpl; try done.
    destruct (cmp a b) eqn:Hab; try done.
    + apply (cmp_eq_iff cmp) in Hab as ->.
      destruct (cmp b c); try done. apply IH.
    + destruct (cmp b c) eqn:Hbc; try done.
      * apply (cmp_eq_iff cmp) in Hbc as <-. by rewrite Hab.
      * by rewrite (cmp_lt_trans cmp _ _ _ Hab Hbc).
Qed.

Global Instance par_orden {A B} (ca : A → A → comparison) (cb : B → B → comparison)
  `{!OrdenTotal ca, !OrdenTotal cb} : OrdenTotal (par_compare ca cb).
Proof.
  split.
  - intros [a b] [a' b']. unfold par_compare, seguido. simpl.
    destruct (ca a a') eqn:Ha.
    + apply (cmp_eq_iff ca) in Ha as ->. rewrite (cmp_eq_iff cb).
      split; [by intros ->|by intros [=]].
    + split; [done|]. intros [= -> _]. by rewrite (cmp_refl ca) in Ha.
    + split; [done|]. intros [= -> _]. by rewrite (cmp_refl ca) in Ha.
  - intros [a b] [a' b']. unfold par_compare, seguido. simpl.
    rewrite (cmp_antisym ca a a'). destruct (ca a a'); simpl; auto. apply (cmp_antisym cb).
  - intros [a b] [a' b'] [a'' b'']. unfold par_compare, seguido. simpl.
    destruct (ca a a') eqn:Hab; try done.
    + apply (cmp_eq_iff ca) in Hab as ->.
      destruct (ca a' a''); try done. apply (cmp_lt_trans cb).
    + destruct (ca a' a'') eqn:Hbc; try done.
      * apply (cmp_eq_iff ca) in Hbc as <-. by rewrite Hab.
      * by rewrite (cmp_lt_trans ca _ _ _ Hab Hbc).
Qed.

Global Instance campos_orden : OrdenTotal campos_compare.
Proof. unfold campos_compare. apply _. Qed.

Global Instance clave_orden : OrdenTotal clave_compare.
Proof. unfold clave_compare. apply _. Qed.

Lemma es_le_es_lt {A} (cmp : A → A → comparison) `{!OrdenTotal cmp} x y :
  es_le (cmp x y) = negb (es_lt (cmp y x)).
Proof. rewrite (cmp_antisym cmp x y). by destruct (cmp x y). Qed.

Lemma es_le_refl {A} (cmp : A → A → comparison) `{!OrdenTotal cmp} x :
  es_le (cmp x x) = true.
Proof. by rewrite (cmp_refl cmp). Qed.

Lemma es_le_trans {A} (cmp : A → A → comparison) `{!OrdenTotal cmp} x y z :
  es_le (cmp x y) = true → es_le (cmp y z) = true → es_le (cmp x z) = true.
Proof.
  destruct (cmp x y) eqn:Hxy; [| |done].
  - apply (cmp_eq_iff cmp) in Hxy as ->. done.
  - destruct (cmp y z) eqn:Hyz; [| |done].
    + apply (cmp_eq_iff cmp) in Hyz as ->. by rewrite Hxy.
    + by rewrite (cmp_lt_trans cmp _ _ _ Hxy Hyz).
Qed.

Lemma es_le_total {A} (cmp : A → A → comparison) `{!OrdenTotal cmp} x y :
  es_le (cmp x y) = false → es_le (cmp y x) = true.
Proof. rewrite (cmp_antisym cmp x y). by destruct (cmp x y). Qed.

Lemma es_le_antisym {A} (cmp : A → A → comparison) `{!OrdenTotal cmp} x y :
  es_le (cmp x y) = true → es_le (cmp y x) = true → x = y.
Proof.
  rewrite (cmp_antisym cmp x y). destruct (cmp x y) eqn:Hxy; try done.
  intros _ _. by apply (cmp_eq_iff cmp).
Qed.

(** ** Exchanging two slots *)

Section Swap.
Context {A : Type}.
Implicit Types arr : list A.

Lemma swap_length arr i j : length (swap arr i j) = length arr.
Proof.
  unfold swap. destruct (arr !! i), (arr !! j); try done.
  by rewrite !length_insert.
Qed.

Lemma swap_lookup arr i j k :
  i < length arr → j < length arr →
  swap arr i j !! k =
    if decide (k = i) then arr !! j
    else if decide (k = j) then arr !! i else arr !! k.
Proof.
  intros Hi Hj. unfold swap.
  destruct (lookup_lt_is_Some_2 arr i Hi) as [x Hx].
  destruct (lookup_lt_is_Some_2 arr j Hj) as [y Hy].
  rewrite Hx, Hy.
  destruct (decide (k = i)) as [->|Hki].
  - rewrite list_lookup_insert_eq; [done|by rewrite length_insert].
  - rewrite list_lookup_insert_ne by done.
    destruct (decide (k = j)) as [->|Hkj].
    + by rewrite list_lookup_insert_eq.
    + by rewrite list_lookup_insert_ne.
Qed.

Lemma swap_igual arr i j : arr !! i = arr !! j → swap arr i j = arr.
Proof.
  intros Hij. unfold swap. rewrite <- Hij.
  destruct (arr !! i) as [x|] eqn:Hx; [|done].
  rewrite (list_insert_id arr j x) by congruence.
  by rewrite list_insert_id.
Qed.

Lemma swap_swap arr i j :
  i < length arr → j < length arr → swap (swap arr i j) i j = arr.
Proof.
  intros Hi Hj. apply list_eq. intros k.
  rewrite !swap_lookup by (by rewrite ?swap_length).
  repeat case_decide; subst; done.
Qed.

Lemma swap_sym arr i j : swap arr i j = swap arr j i.
Proof.
  destruct (decide (i < length arr)) as [Hi|Hi];
    [destruct (decide (j < length arr)) as [Hj|Hj]|].
  - apply list_eq. intros k. rewrite !swap_lookup by done.
    repeat case_decide; subst; done.
  - unfold swap. rewrite (lookup_ge_None_2 arr j) by lia.
    by destruct (arr !! i).
  - unfold swap. rewrite (lookup_ge_None_2 arr i) by lia.
    by destruct (arr !! j).
Qed.

Lemma insert_perm arr j x y :
  arr !! j = Some y → <[j:=x]> arr ≡ₚ x :: delete j arr.
Proof.
  intros Hy.
  assert (Hd : delete j (<[j:=x]> arr) = delete j arr).
  { apply list_eq. intros k. rewrite !list_lookup_delete.
    case_decide; by rewrite list_lookup_insert_ne by lia. }
  rewrite <- Hd. apply delete_Permutation.
  apply list_lookup_insert_eq. by eapply lookup_lt_Some.
Qed.

Lemma swap_perm arr i j : swap arr i j ≡ₚ arr.
Proof.
  unfold swap.
  destruct (arr !! i) as [x|] eqn:Hx; [|done].
  destruct (arr !! j) as [y|] eqn:Hy; [|done].
  destruct (decide (i = j)) as [->|Hij].
  - rewrite list_insert_insert_eq. rewrite list_insert_id; [done|congruence].
  - assert (Hx' : <[j:=x]> arr !! i = Some x) by (by rewrite list_lookup_insert_ne).
    apply (Permutation_cons_inv (a:=x)).
    rewrite (insert_perm _ i y x Hx').
    rewrite Permutation_swap.
    rewrite <- (delete_Permutation _ i x Hx').
    rewrite (insert_perm _ j x y Hy).
    rewrite Permutation_swap.
    by rewrite <- (delete_Permutation _ j y Hy).
Qed.

(** The last slot of a non-empty list, and the slots before it. *)
Lemma ultimo_y_resto (heap : list A) lastelt :
  heap !! (length heap - 1) = Some lastelt →
  heap = take (length heap - 1) heap ++ [lastelt].
Proof.
  intros Hl.
  rewrite <- (take_drop (length heap - 1) heap) at 1. f_equal.
  apply lookup_lt_Some in Hl as Hlen.
  rewrite (drop_S _ _ _ Hl). rewrite drop_ge by lia. done.
Qed.

End Swap.

(** ** [heapq] only ever permutes the list

    These facts hold whatever the comparison does, also when it raises:
    a sift exchanges slots and nothing else. *)

Section HeapqPerm.
Context {A : Type} (lt : A → A → resultado bool).
Implicit Types arr heap : list A.

Lemma siftdown_loop_perm fuel arr startpos pos :
  (siftdown_loop lt fuel arr startpos pos).1 ≡ₚ arr.
Proof.
  revert arr pos. induction fuel as [|fuel IH]; intros arr pos;
    cbn [siftdown_loop]; [done|].
  case_decide; [|done].
  destruct (arr !! pos) as [newitem|]; [|done].
  destruct (arr !! ((pos - 1) / 2)) as [parent|]; [|done].
  destruct (lt newitem parent) as [[]|]; try done.
  rewrite IH. apply swap_perm.
Qed.

(** The rounds [siftdown] is given beyond [pos] are never used. *)
Lemma siftdown_loop_fuel f1 f2 arr startpos pos :
  pos ≤ f1 → pos ≤ f2 →
  siftdown_loop lt f1 arr startpos pos = siftdown_loop lt f2 arr startpos pos.
Proof.
  revert f2 arr pos. induction f1 as [|f1 IH]; intros [|f2] arr pos H1 H2;
    cbn [siftdown_loop]; try done.
  - rewrite decide_False by lia. done.
  - rewrite decide_False by lia. done.
  - case_decide; [|done].
    destruct (arr !! pos) as [newitem|]; [|done].
    destruct (arr !! ((pos - 1) / 2)) as [parent|]; [|done].
    destruct (lt newitem parent) as [[]|]; try done.
    apply IH; lia.
Qed.

Lemma siftdown_loop_inicio fuel arr startpos :
  siftdown_loop lt fuel arr startpos startpos = (arr, Ok tt).
Proof. destruct fuel; cbn [siftdown_loop]; [done|]. by rewrite decide_False by lia. Qed.

Lemma siftdown_perm arr startpos pos : (siftdown lt arr startpos pos).1 ≡ₚ arr.
Proof. unfold siftdown. case_decide; [done|]. apply siftdown_loop_perm. Qed.

Lemma siftup_loop_perm fuel arr pos : (siftup_loop lt fuel arr pos).1 ≡ₚ arr.
Proof.
  revert arr pos. induction fuel as [|fuel IH]; intros arr pos;
    cbn [siftup_loop]; [done|].
  case_decide; [|done].
  case_decide.
  - destruct (arr !! (2 * pos + 1)) as [a|]; [|done].
    destruct (arr !! (2 * pos + 1 + 1)) as [b|]; [|done].
    destruct (lt a b) as [cmp|]; [|done].
    rewrite IH. apply swap_perm.
  - rewrite IH. apply swap_perm.
Qed.

(** Nor are the rounds [siftup] is given beyond the length of the list. *)
Lemma siftup_loop_fuel f1 f2 arr pos :
  length arr ≤ f1 + pos → length arr ≤ f2 + pos →
  siftup_loop lt f1 arr pos = siftup_loop lt f2 arr pos.
Proof.
  revert f2 arr pos. induction f1 as [|f1 IH]; intros [|f2] arr pos H1 H2;
    cbn [siftup_loop]; try done.
  - by rewrite decide_False by lia.
  - by rewrite decide_False by lia.
  - case_decide; [|done].
    case_decide.
    + destruct (arr !! (2 * pos + 1)) as [a|]; [|done].
      destruct (arr !! (2 * pos + 1 + 1)) as [b|]; [|done].
      destruct (lt a b) as [[]|]; [..|done];
        (apply IH; rewrite swap_length; lia).
    + apply IH; rewrite swap_length; lia.
Qed.

Lemma siftup_perm arr pos : (siftup lt arr pos).1 ≡ₚ arr.
Proof.
  unfold siftup. case_decide; [done|].
  pose proof (siftup_loop_perm (length arr) arr pos) as Hp.
  destruct (siftup_loop lt (length arr) arr pos) as [arr' [pos'|e]]; simpl in *; [|done].
  by rewrite siftdown_perm.
Qed.

Lemma heappush_perm heap item : (heappush lt heap item).1 ≡ₚ item :: heap.
Proof.
  unfold heappush. rewrite siftdown_perm.
  by rewrite (comm (++) heap [item]).
Qed.

Lemma heapify_loop_perm i heap : (heapify_loop lt i heap).1 ≡ₚ heap.
Proof.
  revert heap. induction i as [|i IH]; intros heap; simpl; [done|].
  pose proof (siftup_perm heap i) as Hp.
  destruct (siftup lt heap i) as [heap' [[]|e]]; simpl in *; [|done].
  by rewrite IH.
Qed.

Lemma heapify_perm heap : (heapify lt heap).1 ≡ₚ heap.
Proof. apply heapify_loop_perm. Qed.

(** What [heappop] removes is the first slot; the rest is permuted.  On
    an exception the item is already out of the list and is lost. *)
Lemma heappop_perm heap :
  match heap with
  | [] => heappop lt heap = ([], Raise IndexError)
  | primero :: _ =>
    heap ≡ₚ primero :: (heappop lt heap).1 ∧
    ∀ t, (heappop lt heap).2 = Ok t → t = primero
  end.
Proof.
  destruct heap as [|primero heap]; [done|].
  unfold heappop.
  destruct ((primero :: heap) !! (length (primero :: heap) - 1)) as [lastelt|] eqn:Hl.
  2:{ apply lookup_ge_None in Hl. simpl in Hl. lia. }
  pose proof (ultimo_y_resto _ _ Hl) as Heq.
  destruct (take (length (primero :: heap) - 1) (primero :: heap))
    as [|returnitem resto] eqn:Ht.
  - simpl in Heq. injection Heq as -> ->. simpl. split; [done|]. by intros t [= <-].
  - simpl in Heq. injection Heq as <- ->.
    pose proof (siftup_perm (lastelt :: resto) 0) as Hp.
    destruct (siftup lt (lastelt :: resto) 0) as [heap' [[]|e]]; simpl in *.
    + split; [|by intros t [= <-]].
      rewrite Hp. rewrite (comm (++) resto [lastelt]). done.
    + split; [|done].
      rewrite Hp. rewrite (comm (++) resto [lastelt]). done.
Qed.

Lemma heappop_length heap :
  heap ≠ [] → length (heappop lt heap).1 = length heap - 1.
Proof.
  intros Hne. pose proof (heappop_perm heap) as Hp.
  destruct heap as [|primero heap]; [done|].
  destruct Hp as [Hp _]. apply Permutation_length in Hp. simpl in *. lia.
Qed.

End HeapqPerm.

(** ** The heap invariant *)

Lemma desc_ge s p : desc s p → s ≤ p.
Proof. induction 1; lia. Qed.

Lemma desc_padre s p : desc s p → s < p → desc s ((p - 1) / 2).
Proof.
  destruct 1 as [|q c Hq Hc]; [lia|]. intros _.
  by replace ((c - 1) / 2) with q by lia.
Qed.

Lemma desc_0 p : desc 0 p.
Proof.
  induction (lt_wf p) as [p _ IH]. destruct (decide (p = 0)) as [->|Hp].
  - constructor.
  - apply (desc_hijo 0 ((p - 1) / 2)); [apply IH|]; lia.
Qed.

Section HeapqOrden.
Context {A K : Type} (lt : A → A → resultado bool).
Context (key : A → K) (cmp : K → K → comparison) `{!OrdenTotal cmp}.
Context (S : A → Prop).
Hypothesis lt_ok : ∀ x y, S x → S y → lt x y = Ok (es_lt (cmp (key x) (key y))).
Hypothesis key_inj : ∀ x y, S x → S y → key x = key y → x = y.
Implicit Types arr heap : list A.

Lemma ord_le_refl x : (ord_le key cmp) x x.
Proof. apply (es_le_refl cmp). Qed.

Lemma ord_le_trans x y z : (ord_le key cmp) x y → (ord_le key cmp) y z → (ord_le key cmp) x z.
Proof. apply (es_le_trans cmp). Qed.

Lemma lt_ord_le x y : es_lt (cmp (key x) (key y)) = true → (ord_le key cmp) x y.
Proof. unfold ord_le. by destruct (cmp (key x) (key y)). Qed.

Lemma no_lt_ord_le x y : es_lt (cmp (key x) (key y)) = false → (ord_le key cmp) y x.
Proof. unfold ord_le. rewrite (es_le_es_lt cmp). by intros ->. Qed.

Lemma ord_le_no_lt x y : (ord_le key cmp) x y → es_lt (cmp (key y) (key x)) = false.
Proof. unfold ord_le. rewrite (es_le_es_lt cmp). by destruct (es_lt _). Qed.

Lemma ord_le_antisym x y : S x → S y → (ord_le key cmp) x y → (ord_le key cmp) y x → x = y.
Proof. intros Hx Hy Hxy Hyx. apply key_inj; [done..|]. by apply (es_le_antisym cmp). Qed.

Lemma heap_casi_heap s p arr :
  desc s p → heap_desde (ord_le key cmp) s arr → casi_heap key cmp s p arr.
Proof.
  intros Hd Hh. split.
  - intros i j x y Hs Hj _ _. by apply Hh.
  - intros c u y Hs Hc Hu Hy.
    destruct (lookup_lt_is_Some_2 arr p) as [v Hv].
    { apply lookup_lt_Some in Hy. lia. }
    pose proof (desc_ge _ _ (desc_padre _ _ Hd Hs)).
    apply (ord_le_trans _ v).
    + apply (Hh ((p - 1) / 2) p); [done|lia|done..].
    + apply (Hh p c); [lia|done..].
Qed.

Lemma heap_bajo_hijos s p arr : s ≤ p → heap_desde (ord_le key cmp) s arr → bajo_hijos key cmp p arr.
Proof. intros Hs Hh c v y Hc Hv Hy. by apply (Hh p c). Qed.

(** With the item at [p] below its children and above its parent (when
    the parent counts), the heap is complete. *)
Lemma casi_heap_completo s p arr :
  casi_heap key cmp s p arr → bajo_hijos key cmp p arr →
  (∀ u v, s ≤ (p - 1) / 2 → 0 < p →
     arr !! ((p - 1) / 2) = Some u → arr !! p = Some v → (ord_le key cmp) u v) →
  heap_desde (ord_le key cmp) s arr.
Proof.
  intros [H1 H2] Hb Hp i j x y Hs Hj Hx Hy.
  destruct (decide (i = p)) as [->|Hi]; [by apply (Hb j)|].
  destruct (decide (j = p)) as [->|Hjp]; [|by apply (H1 i j)].
  apply Hp; [lia|lia| |done]. by replace ((p - 1) / 2) with i by lia.
Qed.

(** One round of the first loop of [siftup]: the smaller child [cp] of
    [p] goes up, and the slot left open goes down to [cp]. *)
Lemma casi_heap_baja s p cp arr :
  cp < length arr → cp = 2 * p + 1 ∨ cp = 2 * p + 2 → desc s p →
  casi_heap key cmp s p arr →
  (∀ c x y, c = 2 * p + 1 ∨ c = 2 * p + 2 →
     arr !! cp = Some x → arr !! c = Some y → (ord_le key cmp) x y) →
  casi_heap key cmp s cp (swap arr cp p).
Proof.
  intros Hcp Hc Hd [H1 H2] Hmin.
  assert (Hp : p < length arr) by lia.
  pose proof (desc_ge _ _ Hd) as Hsp.
  split.
  - intros i j x y Hs Hj Hi Hjc. rewrite !swap_lookup by done.
    rewrite (decide_False (P:=i = cp)) by done.
    rewrite (decide_False (P:=j = cp)) by done.
    destruct (decide (i = p)) as [->|Hip].
    + rewrite (decide_False (P:=j = p)) by lia. intros Hx Hy. by apply (Hmin j).
    + destruct (decide (j = p)) as [->|Hjp].
      * intros Hx Hy. apply (H2 cp x y); [lia|done| |done].
        by replace ((p - 1) / 2) with i by lia.
      * intros Hx Hy. by apply (H1 i j).
  - intros c u y Hs Hcc. rewrite !swap_lookup by done.
    replace ((cp - 1) / 2) with p by lia.
    rewrite (decide_False (P:=p = cp)) by lia.
    rewrite (decide_True (P:=p = p)) by done.
    rewrite (decide_False (P:=c = cp)) by lia.
    rewrite (decide_False (P:=c = p)) by lia.
    intros Hu Hy. apply (H1 cp c); [lia|done|lia|lia|done..].
Qed.

(** One round of [siftdown]: the item at [p], smaller than its parent,
    changes places with it. *)
Lemma casi_heap_sube s p arr v u :
  p < length arr → s < p → desc s p →
  arr !! p = Some v → arr !! ((p - 1) / 2) = Some u → (ord_le key cmp) v u →
  casi_heap key cmp s p arr → bajo_hijos key cmp p arr →
  casi_heap key cmp s ((p - 1) / 2) (swap arr ((p - 1) / 2) p) ∧
  bajo_hijos key cmp ((p - 1) / 2) (swap arr ((p - 1) / 2) p).
Proof.
  intros Hp Hs Hd Hv Hu Hvu [H1 H2] Hb.
  set (pp := (p - 1) / 2) in *.
  assert (Hpp : pp < length arr) by (unfold pp; lia).
  assert (Hppp : pp < p) by (unfold pp; lia).
  pose proof (desc_padre _ _ Hd Hs) as Hdpp. fold pp in Hdpp.
  pose proof (desc_ge _ _ Hdpp) as Hspp.
  split; [split|].
  - intros i j x y Hsi Hj Hi Hjp. rewrite !swap_lookup by done.
    rewrite (decide_False (P:=i = pp)) by done.
    rewrite (decide_False (P:=j = pp)) by done.
    rewrite (decide_False (P:=j = p)) by (unfold pp in *; lia).
    destruct (decide (i = p)) as [->|Hip].
    + simpl. rewrite Hu. intros [= <-] Hy. by apply (H2 j).
    + intros Hx Hy. apply (H1 i j); try done. unfold pp in *; lia.
  - intros c u' y Hs' Hc. rewrite !swap_lookup by done.
    rewrite (decide_False (P:=(pp - 1) / 2 = pp)) by lia.
    rewrite (decide_False (P:=(pp - 1) / 2 = p)) by lia.
    rewrite (decide_False (P:=c = pp)) by lia.
    intros Hu'.
    assert (Hle : (ord_le key cmp) u' u).
    { apply (H1 ((pp - 1) / 2) pp); [|lia|lia|lia|done..].
      apply desc_ge. by apply desc_padre. }
    destruct (decide (c = p)) as [->|Hcp].
    + simpl. rewrite Hu. by intros [= <-].
    + intros Hy. apply (ord_le_trans _ u); [done|].
      apply (H1 pp c); [done|done|lia|done|done..].
  - intros c v' y Hc. rewrite !swap_lookup by done.
    rewrite (decide_True (P:=pp = pp)) by done.
    rewrite (decide_False (P:=c = pp)) by lia.
    rewrite Hv. intros [= <-].
    destruct (decide (c = p)) as [->|Hcp].
    + simpl. rewrite Hu. by intros [= <-].
    + intros Hy. apply (ord_le_trans _ u); [done|].
      apply (H1 pp c); [done|done|lia|done|done..].
Qed.

Lemma Forall_swap arr i j : Forall S arr → Forall S (swap arr i j).
Proof. intros H. by rewrite swap_perm. Qed.

(** *** No exception among items that can be ordered

    Whatever the order of the slots, the sifts end without exception
    when every two items can be compared. *)

Lemma siftdown_loop_ok fuel arr s p :
  Forall S arr → p < length arr →
  ∃ arr', siftdown_loop lt fuel arr s p = (arr', Ok tt).
Proof.
  revert arr p. induction fuel as [|fuel IH]; intros arr p HS Hp;
    cbn [siftdown_loop]; [by eexists|].
  case_decide as Hsp; [|by eexists].
  destruct (lookup_lt_is_Some_2 arr p Hp) as [v Hv].
  destruct (lookup_lt_is_Some_2 arr ((p - 1) / 2)) as [u Hu]; [lia|].
  rewrite Hv, Hu. rewrite lt_ok by (eapply Forall_lookup_1; eauto).
  destruct (es_lt (cmp (key v) (key u))); [|by eexists].
  apply IH; [by apply Forall_swap|rewrite swap_length; lia].
Qed.

Lemma siftup_loop_ok fuel arr p :
  Forall S arr → p < length arr →
  ∃ arr' hoja, siftup_loop lt fuel arr p = (arr', Ok hoja) ∧ hoja < length arr'.
Proof.
  revert arr p. induction fuel as [|fuel IH]; intros arr p HS Hp;
    cbn [siftup_loop]; [by eexists _, _|].
  case_decide as Hhoja; [|by eexists _, _].
  case_decide as Hdos.
  - destruct (lookup_lt_is_Some_2 arr (2 * p + 1)) as [a Ha]; [lia|].
    destruct (lookup_lt_is_Some_2 arr (2 * p + 1 + 1)) as [b Hb]; [lia|].
    rewrite Ha, Hb. rewrite lt_ok by (eapply Forall_lookup_1; eauto).
    destruct (es_lt (cmp (key a) (key b))); cbv beta zeta iota;
      (apply IH; [by apply Forall_swap|rewrite swap_length; lia]).
  - apply IH; [by apply Forall_swap|rewrite swap_length; lia].
Qed.

Lemma siftup_ok arr p :
  Forall S arr → p < length arr → ∃ arr', siftup lt arr p = (arr', Ok tt).
Proof.
  intros HS Hp. unfold siftup. rewrite decide_False by lia.
  destruct (siftup_loop_ok (length arr) arr p) as (arr1 & hoja & Hr & Hh); [done..|].
  pose proof (siftup_loop_perm lt (length arr) arr p) as Hperm.
  rewrite Hr in Hperm |- *. simpl in Hperm.
  unfold siftdown. rewrite decide_False by lia.
  apply siftdown_loop_ok; [by rewrite Hperm|done].
Qed.

Lemma heappop_ok heap :
  Forall S heap → heap ≠ [] →
  ∃ heap' t, heappop lt heap = (heap', Ok t) ∧ heap !! 0 = Some t.
Proof.
  intros HS Hne. unfold heappop.
  destruct (heap !! (length heap - 1)) as [lastelt|] eqn:Hl.
  2:{ apply lookup_ge_None in Hl. destruct heap; simpl in *; [done|lia]. }
  pose proof (ultimo_y_resto _ _ Hl) as Heq.
  destruct (take (length heap - 1) heap) as [|returnitem resto] eqn:Ht.
  - exists [], lastelt. split; [done|]. by rewrite Heq.
  - assert (HS' : Forall S (lastelt :: resto)).
    { rewrite Heq in HS. apply Forall_app in HS as [HS1 HS2].
      apply Forall_cons in HS1 as [_ HS1]. apply Forall_cons in HS2 as [HS2 _].
      by constructor. }
    destruct (siftup_ok (lastelt :: resto) 0) as (heap' & ->); [done|simpl; lia|].
    exists heap', returnitem. split; [done|]. by rewrite Heq.
Qed.

(** [siftdown] completes the heap, and never runs out of rounds. *)
Lemma siftdown_loop_heap fuel arr s p :
  Forall S arr → p < length arr → p ≤ fuel → desc s p →
  casi_heap key cmp s p arr → bajo_hijos key cmp p arr →
  ∃ arr', siftdown_loop lt fuel arr s p = (arr', Ok tt) ∧ heap_desde (ord_le key cmp) s arr'.
Proof.
  revert arr p. induction fuel as [|fuel IH]; intros arr p HS Hp Hf Hd Hc Hb;
    cbn [siftdown_loop].
  - exists arr. split; [done|]. apply (casi_heap_completo s p); [done..|]. intros; lia.
  - case_decide as Hsp.
    + destruct (lookup_lt_is_Some_2 arr p Hp) as [v Hv].
      destruct (lookup_lt_is_Some_2 arr ((p - 1) / 2)) as [u Hu]; [lia|].
      rewrite Hv, Hu.
      rewrite lt_ok by (eapply Forall_lookup_1; eauto).
      destruct (es_lt (cmp (key v) (key u))) eqn:Hlt.
      * destruct (casi_heap_sube s p arr v u) as [Hc' Hb']; try done.
        { by apply lt_ord_le. }
        apply IH; try done.
        -- by apply Forall_swap.
        -- rewrite swap_length. lia.
        -- lia.
        -- by apply desc_padre.
      * exists arr. split; [done|]. apply (casi_heap_completo s p); [done..|].
        intros u' v' _ _ Hu' Hv'. simplify_eq. by apply no_lt_ord_le.
    + exists arr. split; [done|]. apply (casi_heap_completo s p); [done..|].
      intros; lia.
Qed.

(** The first loop of [siftup] ends on a leaf, with the heap complete
    but for that leaf. *)
Lemma siftup_loop_casi fuel arr s p :
  Forall S arr → p < length arr → length arr ≤ fuel + p → desc s p →
  casi_heap key cmp s p arr →
  ∃ arr' hoja, siftup_loop lt fuel arr p = (arr', Ok hoja) ∧
    length arr' = length arr ∧ hoja < length arr ∧ length arr ≤ 2 * hoja + 1 ∧
    desc s hoja ∧ casi_heap key cmp s hoja arr'.
Proof.
  revert arr p. induction fuel as [|fuel IH]; intros arr p HS Hp Hf Hd Hc;
    cbn [siftup_loop]; [lia|].
  case_decide as Hhoja; [|exists arr, p; split_and!; [done|done|done|lia|done|done]].
  assert (Hpaso : ∀ cp, cp < length arr → cp = 2 * p + 1 ∨ cp = 2 * p + 2 →
    (∀ c x y, c = 2 * p + 1 ∨ c = 2 * p + 2 →
       arr !! cp = Some x → arr !! c = Some y → (ord_le key cmp) x y) →
    ∃ arr' hoja, siftup_loop lt fuel (swap arr cp p) cp = (arr', Ok hoja) ∧
      length arr' = length arr ∧ hoja < length arr ∧ length arr ≤ 2 * hoja + 1 ∧
      desc s hoja ∧ casi_heap key cmp s hoja arr').
  { intros cp Hcp Hcp' Hmin.
    destruct (IH (swap arr cp p) cp) as (arr' & hoja & Hr & Hl & H1 & H2 & H3 & H4);
      rewrite ?swap_length; try done.
    - by apply Forall_swap.
    - lia.
    - by apply (desc_hijo s p).
    - by apply casi_heap_baja.
    - exists arr', hoja. rewrite swap_length in Hl, H1, H2. done. }
  case_decide as Hdos.
  - destruct (lookup_lt_is_Some_2 arr (2 * p + 1)) as [a Ha]; [lia|].
    destruct (lookup_lt_is_Some_2 arr (2 * p + 1 + 1)) as [b Hb]; [lia|].
    rewrite Ha, Hb.
    rewrite lt_ok by (eapply Forall_lookup_1; eauto).
    destruct (es_lt (cmp (key a) (key b))) eqn:Hlt; cbv beta zeta iota.
    + apply Hpaso; [lia|lia|].
      intros c x y [->| ->] Hx Hy;
        [|replace (2 * p + 2) with (2 * p + 1 + 1) in Hy by lia]; simplify_eq.
      * apply ord_le_refl.
      * by apply lt_ord_le.
    + apply Hpaso; [lia|lia|].
      intros c x y [->| ->] Hx Hy;
        [|replace (2 * p + 2) with (2 * p + 1 + 1) in Hy by lia]; simplify_eq.
      * by apply no_lt_ord_le.
      * apply ord_le_refl.
  - apply Hpaso; [lia|lia|].
    intros c x y [->| ->] Hx Hy.
    + simplify_eq. apply ord_le_refl.
    + apply lookup_lt_Some in Hy. lia.
Qed.

Lemma siftup_heap arr s :
  Forall S arr → s < length arr → casi_heap key cmp s s arr →
  ∃ arr', siftup lt arr s = (arr', Ok tt) ∧ heap_desde (ord_le key cmp) s arr'.
Proof.
  intros HS Hs Hc. unfold siftup. rewrite decide_False by lia.
  destruct (siftup_loop_casi (length arr) arr s s)
    as (arr1 & hoja & Hr & Hl & Hh & Hh' & Hd & Hc1);
    [done|done|lia|constructor|done|].
  pose proof (siftup_loop_perm lt (length arr) arr s) as Hp.
  rewrite Hr in Hp |- *. simpl in Hp.
  unfold siftdown. rewrite decide_False by lia.
  apply siftdown_loop_heap; try done.
  - by rewrite Hp.
  - lia.
  - intros c v y Hcc _ Hy. apply lookup_lt_Some in Hy. lia.
Qed.

Lemma heap_desde_mono s s' arr :
  s ≤ s' → heap_desde (ord_le key cmp) s arr → heap_desde (ord_le key cmp) s' arr.
Proof. intros Hs Hh i j x y Hi. apply Hh. lia. Qed.

Lemma heap_desde_hojas arr s : length arr ≤ 2 * s + 1 → heap_desde (ord_le key cmp) s arr.
Proof. intros Hs i j x y Hi Hj _ Hy. apply lookup_lt_Some in Hy. lia. Qed.

(** [heappush] on a heap gives a heap. *)
Lemma heappush_heap heap item :
  Forall S heap → S item → heap_desde (ord_le key cmp) 0 heap →
  ∃ heap', heappush lt heap item = (heap', Ok tt) ∧ heap_desde (ord_le key cmp) 0 heap'.
Proof.
  intros HS Hi Hh. unfold heappush, siftdown.
  rewrite decide_False by (rewrite length_app; simpl; lia).
  apply siftdown_loop_heap.
  - apply Forall_app. by repeat constructor.
  - rewrite length_app. simpl. lia.
  - done.
  - apply desc_0.
  - split.
    + intros i j x y _ Hj Hil Hjl Hx Hy.
      assert (Hlen : j < length (heap ++ [item])) by (by eapply lookup_lt_Some).
      rewrite length_app in Hlen. cbn [length] in Hlen.
      rewrite lookup_app_l in Hx, Hy by lia. by apply (Hh i j); [lia|..].
    + intros c u y _ Hc _ Hy. apply lookup_lt_Some in Hy.
      rewrite length_app in Hy. simpl in Hy. lia.
  - intros c v y Hc _ Hy. apply lookup_lt_Some in Hy.
    rewrite length_app in Hy. simpl in Hy. lia.
Qed.

(** [heappop] on a non-empty heap returns the first slot and leaves a
    heap. *)
Lemma heappop_heap heap :
  Forall S heap → heap_desde (ord_le key cmp) 0 heap → heap ≠ [] →
  ∃ heap' t, heappop lt heap = (heap', Ok t) ∧ heap !! 0 = Some t ∧
    heap_desde (ord_le key cmp) 0 heap'.
Proof.
  intros HS Hh Hne. unfold heappop.
  destruct (heap !! (length heap - 1)) as [lastelt|] eqn:Hl.
  2:{ apply lookup_ge_None in Hl. destruct heap; simpl in *; [done|lia]. }
  pose proof (ultimo_y_resto _ _ Hl) as Heq.
  destruct (take (length heap - 1) heap) as [|returnitem resto] eqn:Ht.
  - exists [], lastelt. split; [done|]. split; [by rewrite Heq|].
    by intros i j x y.
  - assert (HS' : Forall S (lastelt :: resto)).
    { rewrite Heq in HS. apply Forall_app in HS as [HS1 HS2].
      apply Forall_cons in HS1 as [_ HS1]. apply Forall_cons in HS2 as [HS2 _].
      by constructor. }
    destruct (siftup_heap (lastelt :: resto) 0) as (heap' & -> & Hh'); [done|simpl; lia| |].
    + split; [|intros; lia].
      intros i j x y _ Hj Hi0 Hj0 Hx Hy.
      assert (j < length (lastelt :: resto)) by (by eapply lookup_lt_Some).
      destruct i as [|i]; [done|]. destruct j as [|j]; [done|].
      simpl in *. apply (Hh (Datatypes.S i) (Datatypes.S j)); [lia|lia|..];
        rewrite Heq; simpl; by rewrite lookup_app_l by lia.
    + exists heap', returnitem. split; [done|]. split; [by rewrite Heq|done].
Qed.

(** [heapify] makes a heap of any list. *)
Lemma heapify_loop_heap i heap :
  Forall S heap → i ≤ length heap → heap_desde (ord_le key cmp) i heap →
  ∃ heap', heapify_loop lt i heap = (heap', Ok tt) ∧ heap_desde (ord_le key cmp) 0 heap'.
Proof.
  revert heap. induction i as [|i IH]; intros heap HS Hi Hh; simpl.
  - by exists heap.
  - destruct (siftup_heap heap i) as (heap1 & Hr & Hh1); [done|lia| |].
    + split; [|intros; lia].
      intros k j x y Hk Hj Hki _. apply Hh; [lia|done].
    + pose proof (siftup_perm lt heap i) as Hp. rewrite Hr in Hp |- *. simpl in Hp.
      apply IH; [by rewrite Hp| |done].
      apply Permutation_length in Hp. lia.
Qed.

Lemma heapify_heap heap :
  Forall S heap →
  ∃ heap', heapify lt heap = (heap', Ok tt) ∧ heap_desde (ord_le key cmp) 0 heap'.
Proof.
  intros HS. apply heapify_loop_heap; [done|lia|].
  apply heap_desde_hojas. lia.
Qed.

(** The first slot of a heap is below every slot. *)
Lemma heap_minimo heap t x :
  heap_desde (ord_le key cmp) 0 heap → heap !! 0 = Some t → x ∈ heap → (ord_le key cmp) t x.
Proof.
  intros Hh Ht Hx. apply list_elem_of_lookup in Hx as [j Hj].
  revert x Hj. induction (lt_wf j) as [j _ IH]. intros x Hj.
  destruct (decide (j = 0)) as [->|Hj0].
  - simplify_eq. apply ord_le_refl.
  - destruct (lookup_lt_is_Some_2 heap ((j - 1) / 2)) as [u Hu].
    { apply lookup_lt_Some in Hj. lia. }
    apply (ord_le_trans _ u).
    + apply (IH ((j - 1) / 2)); [lia|done].
    + apply (Hh ((j - 1) / 2) j); [lia|lia|done..].
Qed.

(** *** On a heap, [siftup] and [heapify] change nothing

    The item goes down to a leaf past children it is below, and comes
    back up past every one of them that is strictly above it; the ones
    it stops under are equal to it. *)

Lemma siftup_loop_vuelve fuel arr s p :
  Forall S arr → p < length arr → length arr ≤ fuel + p → desc s p →
  casi_heap key cmp s p arr → bajo_hijos key cmp p arr →
  ∃ arr1 hoja, siftup_loop lt fuel arr p = (arr1, Ok hoja) ∧
    hoja < length arr1 ∧
    siftdown_loop lt hoja arr1 s hoja = siftdown_loop lt p arr s p.
Proof.
  revert arr p. induction fuel as [|fuel IH]; intros arr p HS Hp Hf Hd Hc Hb;
    cbn [siftup_loop]; [lia|].
  case_decide as Hhoja; [|by exists arr, p].
  destruct (lookup_lt_is_Some_2 arr p Hp) as [v Hv].
  pose proof (desc_ge _ _ Hd) as Hsp.
  assert (Hpaso : ∀ cp c, cp < length arr → cp = 2 * p + 1 ∨ cp = 2 * p + 2 →
    arr !! cp = Some c →
    (∀ c' x y, c' = 2 * p + 1 ∨ c' = 2 * p + 2 →
       arr !! cp = Some x → arr !! c' = Some y → (ord_le key cmp) x y) →
    ∃ arr1 hoja, siftup_loop lt fuel (swap arr cp p) cp = (arr1, Ok hoja) ∧
      hoja < length arr1 ∧
      siftdown_loop lt hoja arr1 s hoja = siftdown_loop lt p arr s p).
  { intros cp c Hcp Hcp' Hcv Hmin.
    assert (Hvc : (ord_le key cmp) v c) by (by apply (Hb cp)).
    destruct (IH (swap arr cp p) cp) as (arr1 & hoja & Hr & Hl & Hv1);
      rewrite ?swap_length; try done.
    { by apply Forall_swap. }
    { lia. }
    { by apply (desc_hijo s p). }
    { by apply casi_heap_baja. }
    { intros c' v' y Hc'. rewrite !swap_lookup by done.
      rewrite (decide_True (P:=cp = cp)) by done.
      rewrite (decide_False (P:=c' = cp)) by lia.
      rewrite (decide_False (P:=c' = p)) by lia.
      rewrite Hv. intros [= <-] Hy.
      apply (ord_le_trans _ c); [done|].
      destruct Hc as [H1 _]. apply (H1 cp c'); [lia|done|lia|lia|done..]. }
    exists arr1, hoja. split; [done|]. split; [done|]. rewrite Hv1.
    (* the first round of [siftdown] from [cp] *)
    destruct cp as [|cp']; [lia|]. cbn [siftdown_loop].
    rewrite decide_True by lia.
    replace ((Datatypes.S cp' - 1) / 2) with p by lia.
    rewrite !swap_lookup by done.
    rewrite (decide_True (P:=Datatypes.S cp' = Datatypes.S cp')) by done.
    rewrite (decide_False (P:=p = Datatypes.S cp')) by lia.
    rewrite (decide_True (P:=p = p)) by done.
    rewrite Hv, Hcv.
    rewrite lt_ok by (eapply Forall_lookup_1; eauto).
    destruct (es_lt (cmp (key v) (key c))) eqn:Hlt.
    - rewrite (swap_sym _ p). rewrite swap_swap by done.
      apply siftdown_loop_fuel; lia.
    - assert (v = c) as ->.
      { apply ord_le_antisym; [by eapply Forall_lookup_1..|done|by apply no_lt_ord_le]. }
      rewrite swap_igual by congruence.
      destruct p as [|p']; [done|]. cbn [siftdown_loop].
      case_decide as Hs; [|done].
      destruct (lookup_lt_is_Some_2 arr ((Datatypes.S p' - 1) / 2)) as [u Hu]; [lia|].
      rewrite Hv, Hu. rewrite lt_ok by (eapply Forall_lookup_1; eauto).
      rewrite (ord_le_no_lt u c); [done|].
      destruct Hc as [_ H2]. by apply (H2 (Datatypes.S cp') u c). }
  case_decide as Hdos.
  - destruct (lookup_lt_is_Some_2 arr (2 * p + 1)) as [a Ha]; [lia|].
    destruct (lookup_lt_is_Some_2 arr (2 * p + 1 + 1)) as [b Hb']; [lia|].
    rewrite Ha, Hb'.
    rewrite lt_ok by (eapply Forall_lookup_1; eauto).
    destruct (es_lt (cmp (key a) (key b))) eqn:Hlt; cbv beta zeta iota.
    + apply (Hpaso _ a); [lia|lia|done|].
      intros c x y [->| ->] Hx Hy;
        [|replace (2 * p + 2) with (2 * p + 1 + 1) in Hy by lia]; simplify_eq.
      * apply ord_le_refl.
      * by apply lt_ord_le.
    + apply (Hpaso _ b); [lia|lia|done|].
      intros c x y [->| ->] Hx Hy;
        [|replace (2 * p + 2) with (2 * p + 1 + 1) in Hy by lia]; simplify_eq.
      * by apply no_lt_ord_le.
      * apply ord_le_refl.
  - destruct (lookup_lt_is_Some_2 arr (2 * p + 1)) as [a Ha]; [lia|].
    apply (Hpaso _ a); [lia|lia|done|].
    intros c x y [->| ->] Hx Hy.
    + simplify_eq. apply ord_le_refl.
    + apply lookup_lt_Some in Hy. lia.
Qed.

Lemma siftup_id arr s :
  Forall S arr → s < length arr → heap_desde (ord_le key cmp) s arr →
  siftup lt arr s = (arr, Ok tt).
Proof.
  intros HS Hs Hh. unfold siftup. rewrite decide_False by lia.
  destruct (siftup_loop_vuelve (length arr) arr s s) as (arr1 & hoja & -> & Hl & Hv);
    [done|done|lia|constructor| | |].
  - apply heap_casi_heap; [constructor|done].
  - by apply (heap_bajo_hijos s).
  - unfold siftdown. rewrite decide_False by lia.
    rewrite Hv. apply siftdown_loop_inicio.
Qed.

Lemma heapify_loop_id i heap :
  Forall S heap → i ≤ length heap → heap_desde (ord_le key cmp) 0 heap →
  heapify_loop lt i heap = (heap, Ok tt).
Proof.
  intros HS Hi Hh. induction i as [|i IH]; simpl; [done|].
  rewrite siftup_id; [apply IH; lia|done|lia|].
  apply (heap_desde_mono 0); [lia|done].
Qed.

Lemma heapify_id heap :
  Forall S heap → heap_desde (ord_le key cmp) 0 heap → heapify lt heap = (heap, Ok tt).
Proof. intros HS Hh. apply heapify_loop_id; [done|lia|done]. Qed.

End HeapqOrden.

(** ** The heap of tasks *)

Lemma tarea_lt_ok k x y :
  clase x = k → clase y = k →
  tarea_lt x y = Ok (es_lt (campos_compare (campos_de x) (campos_de y))).
Proof. intros Hx Hy. unfold tarea_lt. by rewrite decide_True by congruence. Qed.

Lemma campos_de_inj k x y :
  clase x = k → clase y = k → campos_de x = campos_de y → x = y.
Proof. destruct x, y. unfold campos_de. simpl. by intros -> -> [= -> -> -> ->]. Qed.

Lemma tarea_lt_mixto x y : clase x ≠ clase y → tarea_lt x y = Raise TypeError.
Proof. intros H. unfold tarea_lt. by rewrite decide_False. Qed.

(** The order of the tasks goes by priority first, then by date. *)
Lemma tarea_le_clave a b : tarea_le a b → clave_le a b = true.
Proof.
  unfold tarea_le, clave_le, tarea_compare, campos_compare, clave_compare, campos_de, clave.
  unfold par_compare at 1 2. simpl.
  destruct (par_compare Z.compare String.compare (prioridad a, fecha a)
              (prioridad b, fecha b)); simpl; done.
Qed.

Lemma clave_le_prioridad a b : clave_le a b = true → (prioridad a ≤ prioridad b)%Z.
Proof.
  unfold clave_le, clave_compare, clave, par_compare. simpl.
  destruct (prioridad a ?= prioridad b)%Z eqn:Hc; simpl; intros Hle.
  - unfold Z.le. by rewrite Hc.
  - unfold Z.le. by rewrite Hc.
  - done.
Qed.

Lemma es_heap_b_ok h : es_heap_b h = true → es_heap h.
Proof.
  unfold es_heap_b. rewrite forallb_forall. intros Hb i j x y _ Hj Hx Hy.
  assert (Hlen : j < length h) by (by eapply lookup_lt_Some).
  specialize (Hb j). replace ((j - 1) / 2) with i in Hb by lia.
  rewrite Hx, Hy in Hb. apply Hb. apply in_seq. lia.
Qed.

Lemma es_heap_nil : es_heap [].
Proof. by intros i j x y. Qed.

Section HeapTareas.
Context (k : contenedor).
Implicit Types h : list tarea.
Let S := λ t : tarea, clase t = k.

Lemma heappush_tarea h t :
  Forall S h → clase t = k → es_heap h →
  ∃ h', heappush tarea_lt h t = (h', Ok tt) ∧ es_heap h' ∧ h' ≡ₚ t :: h.
Proof.
  intros HS Ht Hh.
  destruct (heappush_heap tarea_lt campos_de campos_compare S (tarea_lt_ok k) h t) as (h' & Hr & Hh'); [done..|].
  exists h'. split; [done|]. split; [done|].
  pose proof (heappush_perm tarea_lt h t) as Hp. by rewrite Hr in Hp.
Qed.

Lemma heappop_tarea h :
  Forall S h → es_heap h → h ≠ [] →
  ∃ h' t, heappop tarea_lt h = (h', Ok t) ∧ h !! 0 = Some t ∧
    es_heap h' ∧ h ≡ₚ t :: h' ∧ (∀ x, x ∈ h → tarea_le t x).
Proof.
  intros HS Hh Hne.
  destruct (heappop_heap tarea_lt campos_de campos_compare S (tarea_lt_ok k) h) as (h' & t & Hr & Ht & Hh'); [done..|].
  exists h', t. split; [done|]. split; [done|]. split; [done|].
  pose proof (heappop_perm tarea_lt h) as Hp. rewrite Hr in Hp.
  destruct h as [|primero h]; [done|]. simpl in Ht. injection Ht as ->.
  destruct Hp as [Hp _]. split; [done|].
  intros x Hx. by apply (heap_minimo campos_de campos_compare (t :: h) t x).
Qed.

Lemma heappop_tarea_ok h :
  Forall S h → h ≠ [] →
  ∃ h' t, heappop tarea_lt h = (h', Ok t) ∧ h !! 0 = Some t ∧ h ≡ₚ t :: h'.
Proof.
  intros HS Hne.
  destruct (heappop_ok tarea_lt campos_de campos_compare S (tarea_lt_ok k) h)
    as (h' & t & Hr & Ht); [done..|].
  exists h', t. split; [done|]. split; [done|].
  pose proof (heappop_perm tarea_lt h) as Hp. rewrite Hr in Hp.
  destruct h as [|primero h]; [done|]. simpl in Ht. injection Ht as ->.
  by destruct Hp as [Hp _].
Qed.

Lemma heapify_tarea h :
  Forall S h →
  ∃ h', heapify tarea_lt h = (h', Ok tt) ∧ es_heap h' ∧ h' ≡ₚ h.
Proof.
  intros HS.
  destruct (heapify_heap tarea_lt campos_de campos_compare S (tarea_lt_ok k) h) as (h' & Hr & Hh'); [done|].
  exists h'. split; [done|]. split; [done|].
  pose proof (heapify_perm tarea_lt h) as Hp. by rewrite Hr in Hp.
Qed.

Lemma heapify_tarea_id h :
  Forall S h → es_heap h → heapify tarea_lt h = (h, Ok tt).
Proof.
  intros HS Hh.
  by apply (heapify_id tarea_lt campos_de campos_compare S (tarea_lt_ok k)
              (campos_de_inj k)).
Qed.

End HeapTareas.

Lemma es_heap_minimo h t x : es_heap h → h !! 0 = Some t → x ∈ h → tarea_le t x.
Proof. apply (heap_minimo campos_de campos_compare). Qed.

(** ** Merge sort *)

Lemma clave_le_refl a : clave_le a a = true.
Proof. apply (es_le_refl clave_compare). Qed.

Lemma clave_le_trans a b c :
  clave_le a b = true → clave_le b c = true → clave_le a c = true.
Proof. apply (es_le_trans clave_compare). Qed.

Lemma clave_le_total a b : clave_le a b = false → clave_le b a = true.
Proof. apply (es_le_total clave_compare). Qed.

Lemma clave_le_clave a b c : clave b = clave c → clave_le a b = clave_le a c.
Proof. unfold clave_le. by intros ->. Qed.

Lemma mezclar_nil_r l : mezclar l [] = l.
Proof. by destruct l. Qed.

Lemma mezclar_cons x l y r :
  mezclar (x :: l) (y :: r) =
    if clave_le x y then x :: mezclar l (y :: r) else y :: mezclar (x :: l) r.
Proof. done. Qed.

Lemma mezclar_perm l r : mezclar l r ≡ₚ l ++ r.
Proof.
  revert r. induction l as [|x l IHl]; intros r; [done|].
  induction r as [|y r IHr]; [by rewrite mezclar_nil_r, app_nil_r|].
  rewrite mezclar_cons. destruct (clave_le x y).
  - by rewrite IHl.
  - rewrite IHr. by rewrite <- Permutation_middle.
Qed.

Lemma mezclar_ordenada l r : ordenada l → ordenada r → ordenada (mezclar l r).
Proof.
  revert r. induction l as [|x l IHl]; intros r Hl Hr; [done|].
  induction r as [|y r IHr]; [by rewrite mezclar_nil_r|].
  apply StronglySorted_inv in Hl as Hl'. destruct Hl' as [Hl1 Hl2].
  apply StronglySorted_inv in Hr as Hr'. destruct Hr' as [Hr1 Hr2].
  rewrite mezclar_cons. destruct (clave_le x y) eqn:Hxy.
  - constructor; [by apply IHl|].
    rewrite mezclar_perm. apply Forall_app. split; [done|].
    constructor; [done|].
    eapply Forall_impl; [exact Hr2|]. intros z Hz. by eapply clave_le_trans.
  - apply clave_le_total in Hxy.
    constructor; [by apply IHr|].
    rewrite mezclar_perm. apply Forall_app. split; [|done].
    constructor; [done|].
    eapply Forall_impl; [exact Hl2|]. intros z Hz. by eapply clave_le_trans.
Qed.

Lemma filter_todos {A} (P : A → Prop) `{!∀ x, Decision (P x)} (l : list A) :
  Forall P l → filter P l = l.
Proof.
  induction 1 as [|x l Hx _ IH]; [done|].
  by rewrite filter_cons, decide_True, IH.
Qed.

Lemma filter_ninguno {A} (P : A → Prop) `{!∀ x, Decision (P x)} (l : list A) :
  Forall (λ x, ¬ P x) l → filter P l = [].
Proof.
  induction 1 as [|x l Hx _ IH]; [done|].
  by rewrite filter_cons, decide_False.
Qed.

(** Merging keeps the tasks of the left list before the tasks of the
    right list that have the same key. *)
Lemma mezclar_estable k l r :
  ordenada l →
  filter (λ t, clave t = k) (mezclar l r) =
    filter (λ t, clave t = k) l ++ filter (λ t, clave t = k) r.
Proof.
  revert r. induction l as [|x l IHl]; intros r Hl; [done|].
  induction r as [|y r IHr]; [by rewrite mezclar_nil_r, app_nil_r|].
  apply StronglySorted_inv in Hl as Hl'. destruct Hl' as [Hl1 Hl2].
  rewrite mezclar_cons. destruct (clave_le x y) eqn:Hxy.
  - rewrite !filter_cons. rewrite IHl by done. by case_decide.
  - rewrite (filter_cons _ y (mezclar _ _)), (filter_cons _ y r), IHr.
    case_decide as Hy; [|done].
    assert (Hnil : filter (λ t, clave t = k) (x :: l) = []).
    { apply filter_ninguno. apply Forall_forall. intros z Hz Hzk.
      assert (Hxz : clave_le x z = true).
      { apply elem_of_cons in Hz as [->|Hz]; [apply clave_le_refl|].
        by eapply Forall_forall in Hl2. }
      rewrite (clave_le_clave x z y) in Hxz by congruence. congruence. }
    by rewrite Hnil.
Qed.

Lemma ordenada_corta l : length l ≤ 1 → ordenada l.
Proof.
  destruct l as [|x [|y l]]; simpl; intros Hl; [constructor| |lia].
  by repeat constructor.
Qed.

(** The three properties of [merge_sort_rec], with fuel enough for the
    list: the result is a permutation, it is in order, and tasks with
    the same key keep their places relative to each other. *)
Lemma merge_sort_rec_spec fuel lista :
  length lista ≤ fuel →
  merge_sort_rec fuel lista ≡ₚ lista ∧
  ordenada (merge_sort_rec fuel lista) ∧
  mismo_orden_por_clave lista (merge_sort_rec fuel lista).
Proof.
  revert lista. induction fuel as [|fuel IH]; intros lista Hf.
  - destruct lista; [|simpl in Hf; lia]. simpl. split; [done|]. split; [constructor|done].
  - cbn [merge_sort_rec]. case_decide as Hl.
    + split; [done|]. split; [by apply ordenada_corta|done].
    + set (mitad := length lista / 2).
      destruct (IH (take mitad lista)) as (Hp1 & Ho1 & He1).
      { rewrite length_take. unfold mitad. lia. }
      destruct (IH (drop mitad lista)) as (Hp2 & Ho2 & He2).
      { rewrite length_drop. unfold mitad. lia. }
      split; [|split].
      * rewrite mezclar_perm, Hp1, Hp2. by rewrite take_drop.
      * by apply mezclar_ordenada.
      * intros k. rewrite mezclar_estable by done.
        rewrite (He1 k), (He2 k). by rewrite <- filter_app, take_drop.
Qed.

Lemma merge_sort_perm lista : merge_sort lista ≡ₚ lista.
Proof. by apply merge_sort_rec_spec. Qed.

Lemma merge_sort_ordenada lista : ordenada (merge_sort lista).
Proof. by apply merge_sort_rec_spec. Qed.

Lemma merge_sort_estable lista : mismo_orden_por_clave lista (merge_sort lista).
Proof. by apply merge_sort_rec_spec. Qed.

(** More fuel than the length changes nothing. *)
Lemma merge_sort_rec_fuel f1 f2 lista :
  length lista ≤ f1 → length lista ≤ f2 →
  merge_sort_rec f1 lista = merge_sort_rec f2 lista.
Proof.
  revert f2 lista. induction f1 as [|f1 IH]; intros [|f2] lista H1 H2;
    cbn [merge_sort_rec]; try done.
  - case_decide; [done|lia].
  - case_decide; [done|lia].
  - case_decide; [done|].
    rewrite (IH f2 (take _ _)), (IH f2 (drop _ _));
      rewrite ?length_take, ?length_drop; try lia. done.
Qed.

(** A change of the tasks that keeps their keys commutes with the sort. *)
Lemma mezclar_fmap (f : tarea → tarea) l r :
  (∀ t, clave (f t) = clave t) →
  mezclar (f <$> l) (f <$> r) = f <$> mezclar l r.
Proof.
  intros Hf. revert r. induction l as [|x l IHl]; intros r; [done|].
  induction r as [|y r IHr]; [by rewrite !mezclar_nil_r|].
  rewrite !fmap_cons, !mezclar_cons.
  unfold clave_le. rewrite !Hf. fold (clave_le x y).
  destruct (clave_le x y).
  - rewrite fmap_cons. f_equal. rewrite <- IHl. by rewrite fmap_cons.
  - rewrite fmap_cons. f_equal. rewrite <- IHr. by rewrite fmap_cons.
Qed.

Lemma merge_sort_rec_fmap (f : tarea → tarea) fuel lista :
  (∀ t, clave (f t) = clave t) →
  merge_sort_rec fuel (f <$> lista) = f <$> merge_sort_rec fuel lista.
Proof.
  intros Hf. revert lista. induction fuel as [|fuel IH]; intros lista;
    cbn [merge_sort_rec]; rewrite length_fmap.
  - by case_decide.
  - case_decide; [done|].
    rewrite <- fmap_take, <- fmap_drop, !IH. by apply mezclar_fmap.
Qed.

Lemma merge_sort_fmap (f : tarea → tarea) lista :
  (∀ t, clave (f t) = clave t) →
  merge_sort (f <$> lista) = f <$> merge_sort lista.
Proof.
  intros Hf. unfold merge_sort. rewrite length_fmap. by apply merge_sort_rec_fmap.
Qed.

(** ** The loops of the task manager *)

Lemma campos_a_tupla t : campos_de (a_tupla t) = campos_de t.
Proof. by destruct t. Qed.

Lemma clase_a_tupla t : clase (a_tupla t) = Tupla.
Proof. by destruct t. Qed.

Lemma nombre_a_tupla t : nombre (a_tupla t) = nombre t.
Proof. by destruct t. Qed.

Lemma obtener_loop_spec k fuel h completadas retiradas :
  Forall (λ t, clase t = k) h → es_heap h → length h ≤ fuel →
  ∃ h' nuevas r,
    obtener_loop fuel h completadas retiradas = (h', retiradas ++ nuevas, Ok r) ∧
    h ≡ₚ nuevas ++ h' ∧ es_heap h' ∧
    Forall (λ d, ejecutable completadas d = false ∧ ∀ x, x ∈ h' → tarea_le d x) nuevas ∧
    match r with
    | Some t => h' !! 0 = Some t ∧ ejecutable completadas t = true
    | None => h' = []
    end.
Proof.
  revert h retiradas. induction fuel as [|fuel IH]; intros h retiradas HS Hh Hf.
  - destruct h; [|simpl in Hf; lia]. exists [], [], None. simpl.
    rewrite app_nil_r. split_and!; try done.
  - destruct h as [|t h0].
    { exists [], [], None. simpl. rewrite app_nil_r. split_and!; try done. }
    cbn [obtener_loop]. destruct (ejecutable completadas t) eqn:He.
    { exists (t :: h0), [], (Some t). rewrite app_nil_r. split_and!; try done. }
    destruct (heappop_tarea k (t :: h0)) as (h1 & t' & Hr & Ht & Hh1 & Hp & Hmin);
      [done..|].
    simpl in Ht. injection Ht as <-. rewrite Hr.
    destruct (IH h1 (retiradas ++ [t])) as (h' & nuevas & r & Hr' & Hp' & Hh' & Hn & Hres).
    + apply Permutation_cons_inv in Hp as Hp0. rewrite <- Hp0.
      by apply Forall_cons in HS as [_ ?].
    + done.
    + apply Permutation_length in Hp. simpl in *. lia.
    + exists h', (t :: nuevas), r. rewrite Hr'. rewrite <- app_assoc. simpl.
      split_and!; try done.
      * rewrite Hp. simpl. by rewrite Hp'.
      * constructor; [|done]. split; [done|]. intros x Hx. apply Hmin.
        rewrite Hp. apply elem_of_cons. right. rewrite Hp'.
        apply elem_of_app. by right.
Qed.

Lemma completar_loop_spec k fuel h n encontrada nuevas completadas :
  Forall (λ t, clase t = k) h → length h ≤ fuel →
  ∃ resto,
    completar_loop fuel h n encontrada nuevas completadas =
      ([], (if bool_decide (n ∈ nombre <$> h) then {[n]} ∪ completadas else completadas),
       Ok (encontrada || bool_decide (n ∈ nombre <$> h), nuevas ++ resto)) ∧
    resto ≡ₚ a_tupla <$> filter (λ t, nombre t ≠ n) h.
Proof.
  revert h encontrada nuevas completadas.
  induction fuel as [|fuel IH]; intros h encontrada nuevas completadas HS Hf.
  - destruct h; [|simpl in Hf; lia]. exists []. simpl.
    rewrite app_nil_r, orb_false_r. done.
  - destruct h as [|t h0].
    { exists []. simpl. rewrite app_nil_r, orb_false_r. done. }
    cbn [completar_loop].
    destruct (heappop_tarea_ok k (t :: h0)) as (h1 & t' & Hr & Ht & Hp); [done..|].
    simpl in Ht. injection Ht as <-. rewrite Hr.
    apply Permutation_cons_inv in Hp as Hp0.
    assert (HS1 : Forall (λ t, clase t = k) h1).
    { rewrite <- Hp0. by apply Forall_cons in HS as [_ ?]. }
    assert (Hf1 : length h1 ≤ fuel).
    { apply Permutation_length in Hp0. simpl in *. lia. }
    case_decide as Hn.
    + destruct (IH h1 true nuevas ({[n]} ∪ completadas)) as (resto & Hr' & Hp'); [done..|].
      exists resto. rewrite Hr'. split.
      * rewrite (bool_decide_eq_true_2 (n ∈ nombre <$> t :: h0)).
        2:{ rewrite fmap_cons, Hn. apply elem_of_cons. by left. }
        rewrite orb_true_r. simpl. f_equal. f_equal.
        case_bool_decide; [|done]. by rewrite (assoc_L (∪)), union_idemp_L.
      * rewrite Hp'. rewrite filter_cons, decide_False by (by intros ?).
        by rewrite Hp0.
    + destruct (IH h1 encontrada (nuevas ++ [a_tupla t]) completadas)
        as (resto & Hr' & Hp'); [done..|].
      exists (a_tupla t :: resto). rewrite Hr'.
      assert (Hb : bool_decide (n ∈ nombre <$> t :: h0) =
                   bool_decide (n ∈ nombre <$> h1)).
      { apply bool_decide_ext. rewrite fmap_cons, elem_of_cons, Hp0.
        split; [by intros [->|?]|by right]. }
      rewrite Hb. rewrite <- app_assoc. split; [done|].
      rewrite filter_cons, decide_True by done.
      rewrite fmap_cons. by rewrite Hp', Hp0.
Qed.

(** The loops of the manager are given one round for each task of the
    heap, and use no more: [heappop] shortens the heap by one. *)
Lemma completar_loop_fuel f1 f2 h n encontrada nuevas completadas :
  length h ≤ f1 → length h ≤ f2 →
  completar_loop f1 h n encontrada nuevas completadas =
    completar_loop f2 h n encontrada nuevas completadas.
Proof.
  revert f2 h encontrada nuevas completadas.
  induction f1 as [|f1 IH]; intros [|f2] [|t h] encontrada nuevas completadas H1 H2;
    try done; simpl in H1, H2; try lia.
  cbn [completar_loop].
  pose proof (heappop_length tarea_lt (t :: h)) as Hl.
  destruct (heappop tarea_lt (t :: h)) as [h1 [r|e]]; [|done].
  simpl in Hl. specialize (Hl ltac:(done)).
  case_decide; apply IH; lia.
Qed.

Lemma obtener_loop_fuel f1 f2 h completadas retiradas :
  length h ≤ f1 → length h ≤ f2 →
  obtener_loop f1 h completadas retiradas = obtener_loop f2 h completadas retiradas.
Proof.
  revert f2 h retiradas.
  induction f1 as [|f1 IH]; intros [|f2] [|t h] retiradas H1 H2;
    try done; simpl in H1, H2; try lia.
  cbn [obtener_loop]. destruct (ejecutable completadas t); [done|].
  pose proof (heappop_length tarea_lt (t :: h)) as Hl.
  destruct (heappop tarea_lt (t :: h)) as [h1 [r|e]]; [|done].
  simpl in Hl. specialize (Hl ltac:(done)).
  apply IH; lia.
Qed.

(** Whatever the state, the loops drop tasks and add none. *)
Lemma heappop_sub h : (heappop tarea_lt h).1 ⊆ h.
Proof.
  pose proof (heappop_perm tarea_lt h) as Hp. destruct h as [|t h]; [by rewrite Hp|].
  destruct Hp as [Hp _]. intros x Hx. rewrite Hp. apply elem_of_cons. by right.
Qed.

Lemma heappop_ok_sub h h' t : heappop tarea_lt h = (h', Ok t) → t ∈ h.
Proof.
  intros Hr. pose proof (heappop_perm tarea_lt h) as Hp. rewrite Hr in Hp.
  destruct h as [|t0 h]; [done|]. destruct Hp as [_ Hp].
  rewrite (Hp t) by done. apply elem_of_cons. by left.
Qed.

Lemma obtener_loop_sub fuel h completadas retiradas :
  (obtener_loop fuel h completadas retiradas).1.1 ⊆ h.
Proof.
  revert h retiradas. induction fuel as [|fuel IH]; intros h retiradas.
  - destruct h as [|t h]; simpl; [done|]. by destruct (ejecutable completadas t).
  - destruct h as [|t h]; [done|]. cbn [obtener_loop].
    destruct (ejecutable completadas t); [done|].
    pose proof (heappop_sub (t :: h)) as Hs.
    destruct (heappop tarea_lt (t :: h)) as [h1 [r|e]]; simpl in *; [|done].
    etrans; [apply IH|done].
Qed.

Lemma completar_loop_sub fuel h n encontrada nuevas completadas :
  match completar_loop fuel h n encontrada nuevas completadas with
  | (h', _, Raise _) => h' ⊆ h
  | (_, _, Ok (_, nuevas')) =>
    campos_de <$> nuevas' ⊆ campos_de <$> (nuevas ++ h)
  end.
Proof.
  revert h encontrada nuevas completadas.
  induction fuel as [|fuel IH]; intros h encontrada nuevas completadas.
  - destruct h; simpl; [by rewrite app_nil_r|].
    rewrite fmap_app. intros x Hx. apply elem_of_app. by left.
  - destruct h as [|t h0]; [simpl; by rewrite app_nil_r|].
    cbn [completar_loop].
    pose proof (heappop_sub (t :: h0)) as Hs.
    pose proof (heappop_ok_sub (t :: h0)) as Ht.
    destruct (heappop tarea_lt (t :: h0)) as [h1 [r|e]]; simpl in Hs; [|done].
    specialize (Ht h1 r eq_refl).
    case_decide.
    + specialize (IH h1 true nuevas ({[n]} ∪ completadas)).
      destruct (completar_loop _ h1 _ _ _ _) as [[h' c'] [[e' nv]|e']].
      * etrans; [exact IH|]. rewrite !fmap_app. intros x. rewrite !elem_of_app.
        intros [?|Hx]; [by left|right]. apply list_elem_of_fmap in Hx as (y & -> & Hy).
        apply list_elem_of_fmap. exists y. split; [done|]. by apply Hs.
      * by etrans.
    + specialize (IH h1 encontrada (nuevas ++ [a_tupla r]) completadas).
      destruct (completar_loop _ h1 _ _ _ _) as [[h' c'] [[e' nv]|e']].
      * etrans; [exact IH|]. rewrite !fmap_app. intros x. rewrite !elem_of_app.
        intros [[?|Hx]|Hx]; [by left| |]; right.
        -- apply list_elem_of_fmap in Hx as (y & -> & Hy).
           apply list_elem_of_singleton in Hy as ->.
           rewrite campos_a_tupla.
           apply list_elem_of_fmap. by exists r.
        -- apply list_elem_of_fmap in Hx as (y & -> & Hy).
           apply list_elem_of_fmap. exists y. split; [done|]. by apply Hs.
      * by etrans.
Qed.

(** ** Writing the file *)

Lemma prioridades_cortas_Forall d :
  prioridades_cortas d = true ↔
  Forall (λ c, demasiados_digitos (prioridad_de c) = false) d.
Proof.
  unfold prioridades_cortas. rewrite forallb_forall, Forall_forall. split.
  - intros H c Hc. apply list_elem_of_In, H in Hc. by apply negb_true_iff.
  - intros H c Hc. apply negb_true_iff, H. by apply list_elem_of_In.
Qed.

Lemma prioridades_cortas_sub d d' :
  d' ⊆ d → prioridades_cortas d = true → prioridades_cortas d' = true.
Proof.
  rewrite !prioridades_cortas_Forall, !Forall_forall. intros Hs H c Hc. by apply H, Hs.
Qed.

Lemma prioridades_cortas_perm d d' :
  d ≡ₚ d' → prioridades_cortas d = prioridades_cortas d'.
Proof.
  intros Hp. destruct (prioridades_cortas d') eqn:H'.
  - eapply prioridades_cortas_sub; [|exact H']. intros x. by rewrite Hp.
  - destruct (prioridades_cortas d) eqn:H; [|done]. rewrite <- H'. symmetry.
    eapply prioridades_cortas_sub; [|exact H]. intros x. by rewrite Hp.
Qed.

Lemma guardar_heap g :
  heap (guardar_tareas g).1 = heap g ∧
  tareas_completadas (guardar_tareas g).1 = tareas_completadas g.
Proof. unfold guardar_tareas. by destruct (prioridades_cortas _). Qed.

Lemma guardar_cortas g :
  prioridades_cortas (json_dump (heap g)) = true →
  guardar_tareas g =
    (mk_gestor (heap g) (tareas_completadas g) (Some (Tareas (json_dump (heap g)))),
     Ok tt).
Proof. unfold guardar_tareas. by intros ->. Qed.

Lemma guardar_largas g :
  prioridades_cortas (json_dump (heap g)) = false →
  guardar_tareas g =
    (mk_gestor (heap g) (tareas_completadas g) (Some Ilegible),
     Raise (ValueError EnteroDemasiadoLargo)).
Proof. unfold guardar_tareas. by intros ->. Qed.

(** ** The operations on a well-formed store *)

Lemma ejecutable_spec completadas t :
  ejecutable completadas t = true ↔
  ∀ dep, dep ∈ dependencias t → dep ∈ completadas.
Proof.
  unfold ejecutable. rewrite forallb_forall. split.
  - intros H dep Hd. apply list_elem_of_In in Hd.
    by apply (bool_decide_eq_true_1 (dep ∈ completadas)), H.
  - intros H dep Hd. apply list_elem_of_In in Hd.
    by apply (bool_decide_eq_true_2 (dep ∈ completadas)), H.
Qed.

Lemma ejecutable_campos completadas t t' :
  campos_de t = campos_de t' → ejecutable completadas t = ejecutable completadas t'.
Proof. unfold ejecutable. by intros [= _ _ _ ->]. Qed.

Lemma obtener_spec g :
  bien_formado g →
  ∃ h' r,
    obtener_tarea_mayor_prioridad g = (con_heap g h', Ok r) ∧
    heap g ≡ₚ retiradas_por_obtener g ++ h' ∧
    bien_formado (con_heap g h') ∧
    Forall (λ d, ejecutable (tareas_completadas g) d = false ∧
                 ∀ x, x ∈ h' → tarea_le d x) (retiradas_por_obtener g) ∧
    match r with
    | Some t => h' !! 0 = Some t ∧ ejecutable (tareas_completadas g) t = true
    | None => h' = []
    end.
Proof.
  intros [[k Hk] Hh].
  destruct (obtener_loop_spec k (length (heap g)) (heap g) (tareas_completadas g) [])
    as (h' & nuevas & r & Hr & Hp & Hh' & Hn & Hres); [done..|].
  exists h', r. unfold obtener_tarea_mayor_prioridad, retiradas_por_obtener.
  rewrite Hr. simpl. split_and!; try done.
  split; [|done]. exists k. simpl. rewrite Hp in Hk. by apply Forall_app in Hk as [_ ?].
Qed.

(** The state and the result of a method that ends with
    [guardar_tareas], given the heap [h] and the ledger it has built. *)
Lemma completar_spec g n :
  misma_clase (heap g) →
  ∃ h',
    completar_tarea g n =
      (let '(g', r) :=
         guardar_tareas
           (mk_gestor h'
              (if bool_decide (n ∈ nombre <$> heap g)
               then {[n]} ∪ tareas_completadas g else tareas_completadas g)
              (archivo g)) in
       (g', match r with
            | Ok _ => Ok (bool_decide (n ∈ nombre <$> heap g))
            | Raise e => Raise e
            end)) ∧
    h' ≡ₚ a_tupla <$> filter (λ t, nombre t ≠ n) (heap g) ∧
    Forall (λ t, clase t = Tupla) h' ∧ es_heap h'.
Proof.
  intros [k Hk]. unfold completar_tarea.
  destruct (completar_loop_spec k (length (heap g)) (heap g) n false []
              (tareas_completadas g)) as (resto & -> & Hp); [done..|].
  simpl.
  assert (HT : Forall (λ t, clase t = Tupla) resto).
  { rewrite Hp. apply Forall_fmap, Forall_forall. intros t _. apply clase_a_tupla. }
  destruct (heapify_tarea Tupla resto) as (h' & -> & Hh' & Hp'); [done|].
  exists h'. split; [|split; [by rewrite Hp'|split; [by rewrite Hp'|done]]].
  by destruct (guardar_tareas _) as [g' [[]|e]].
Qed.

Lemma heappush_tarea_ok k h t :
  Forall (λ x, clase x = k) h → clase t = k →
  ∃ h', heappush tarea_lt h t = (h', Ok tt) ∧ h' ≡ₚ t :: h.
Proof.
  intros HS Ht. pose proof (heappush_perm tarea_lt h t) as Hp.
  unfold heappush, siftdown in *.
  rewrite decide_False in * by (rewrite length_app; simpl; lia).
  destruct (siftdown_loop_ok tarea_lt campos_de campos_compare (λ x, clase x = k)
              (tarea_lt_ok k) (length h) (h ++ [t]) 0 (length h)) as [h' Hr].
  - apply Forall_app. by repeat constructor.
  - rewrite length_app. simpl. lia.
  - rewrite Hr in Hp |- *. by exists h'.
Qed.

Lemma añadir_spec g nombre p fecha_vencimiento dependencias d :
  Forall (λ t, clase t = Tupla) (heap g) →
  str_bool (strip nombre) = true → strptime fecha_vencimiento = Some d →
  ∃ h',
    añadir_tarea g nombre (PyInt p) fecha_vencimiento dependencias =
      guardar_tareas (mk_gestor h' (tareas_completadas g) (archivo g)) ∧
    h' ≡ₚ mk_tarea Tupla p (isoformat d) nombre dependencias :: heap g ∧
    Forall (λ t, clase t = Tupla) h' ∧
    (es_heap (heap g) → es_heap h').
Proof.
  intros HT Hn Hd. unfold añadir_tarea. rewrite Hn, Hd. simpl.
  set (t := mk_tarea Tupla p (isoformat d) nombre dependencias).
  destruct (heappush_tarea_ok Tupla (heap g) t HT eq_refl) as (h' & Hr & Hp).
  rewrite Hr. exists h'. split; [done|]. split; [done|].
  split; [rewrite Hp; by constructor|].
  intros Hh.
  destruct (heappush_tarea Tupla (heap g) t) as (h'' & Hr' & Hh' & _); [done..|].
  rewrite Hr in Hr'. by injection Hr' as <-.
Qed.

Lemma json_load_clase d : Forall (λ t, clase t = Lista) (json_load d).
Proof. apply Forall_fmap, Forall_forall. by intros [[[??]?]?] _. Qed.

Lemma campos_json_load d : campos_de <$> json_load d = d.
Proof.
  unfold json_load. rewrite <- list_fmap_compose.
  erewrite list_fmap_ext; [by rewrite list_fmap_id|]. by intros _ [[[??]?]?] _.
Qed.

(** The start on a file that is absent, or a document that [json.load]
    reads. *)
Lemma cargar_spec g :
  match archivo g with
  | Some (Tareas d) => prioridades_cortas d = true
  | Some Ilegible => False
  | None => True
  end →
  ∃ h',
    cargar_tareas g = (con_heap g h', Ok tt) ∧
    campos_de <$> h' ≡ₚ tareas_del_archivo (archivo g) ∧
    Forall (λ t, clase t = Lista) h' ∧ es_heap h'.
Proof.
  unfold cargar_tareas. destruct (archivo g) as [[d|]|]; [|done|].
  - intros ->. simpl.
    destruct (heapify_tarea Lista (json_load d)) as (h' & -> & Hh' & Hp);
      [apply json_load_clase|].
    exists h'. split; [done|]. split; [by rewrite Hp, campos_json_load|].
    split; [rewrite Hp; apply json_load_clase|done].
  - intros _. exists []. split; [done|]. split; [done|].
    split; [constructor|apply es_heap_nil].
Qed.

(** ** Dates *)

Lemma digito_rango c v : digito c = Some v → (0 ≤ v ≤ 9)%Z.
Proof.
  unfold digito. case_match eqn:Hc; [|done]. intros [= <-].
  apply andb_true_iff in Hc as [H1 H2].
  apply N.leb_le in H1, H2. lia.
Qed.

Lemma entre_rango lo hi c v : entre lo hi c = Some v → (lo ≤ v ≤ hi)%Z.
Proof.
  unfold entre. destruct (digito c) as [w|]; [|done].
  case_match eqn:Hc; [|done]. intros [= <-].
  apply andb_true_iff in Hc as [H1 H2]. apply Z.leb_le in H1, H2. lia.
Qed.

Lemma digito_cifra n : digito (cifra n) = Some (n mod 10)%Z.
Proof.
  unfold digito, cifra.
  assert (Hn : (0 ≤ n mod 10 < 10)%Z) by (apply Z.mod_pos_bound; lia).
  rewrite N_ascii_embedding by lia.
  rewrite (proj2 (andb_true_iff _ _)).
  - f_equal. lia.
  - split; apply N.leb_le; lia.
Qed.

Lemma forma_iso_isoformat d : forma_iso (isoformat d) = true.
Proof.
  destruct d as [[año mes] dia]. unfold isoformat, cuatro_cifras, dos_cifras.
  cbn [forma_iso forallb]. rewrite !digito_cifra. done.
Qed.

(** The cases of a list built from alternatives. *)
Ltac alternativas H :=
  repeat first
    [ apply elem_of_app in H as [H|H]
    | apply elem_of_cons in H as [H|H]
    | by apply elem_of_nil in H
    | progress (case_match; simplify_eq) ].

Lemma re_m_rango s m r : (m, r) ∈ re_m s → (1 ≤ m ≤ 12)%Z.
Proof.
  unfold re_m. intros H. alternativas H; simplify_eq;
    repeat match goal with H : entre _ _ _ = Some _ |- _ => apply entre_rango in H end;
    lia.
Qed.

Lemma re_d_rango s d r : (d, r) ∈ re_d s → (1 ≤ d ≤ 31)%Z.
Proof.
  unfold re_d. intros H. alternativas H; simplify_eq;
    repeat match goal with H : entre _ _ _ = Some _ |- _ => apply entre_rango in H end;
    lia.
Qed.

Lemma re_fecha_rango s año mes dia r :
  (año, mes, dia, r) ∈ re_fecha s →
  (0 ≤ año ≤ 9999)%Z ∧ (1 ≤ mes ≤ 12)%Z ∧ (1 ≤ dia ≤ 31)%Z.
Proof.
  unfold re_fecha. intros H.
  repeat (case_match; simplify_eq; try by apply elem_of_nil in H).
  apply list_elem_of_bind in H as (r1 & H & _).
  apply list_elem_of_bind in H as ([m r2] & H & Hm).
  apply list_elem_of_bind in H as (r3 & H & _).
  apply list_elem_of_bind in H as ([d r4] & H & Hd).
  apply list_elem_of_singleton in H. simplify_eq.
  apply re_m_rango in Hm. apply re_d_rango in Hd.
  repeat match goal with H : digito _ = Some _ |- _ => apply digito_rango in H end.
  lia.
Qed.

(** What [strptime] accepts is a date of the calendar. *)
Lemma strptime_rango s año mes dia :
  strptime s = Some (año, mes, dia) →
  (1 ≤ año ≤ 9999)%Z ∧ (1 ≤ mes ≤ 12)%Z ∧ (1 ≤ dia ≤ dias_del_mes año mes)%Z.
Proof.
  unfold strptime. intros H.
  destruct (re_fecha s) as [|[[[a m] d] r] l] eqn:Hre; [done|].
  assert (Hin : (a, m, d, r) ∈ re_fecha s) by (rewrite Hre; apply elem_of_cons; by left).
  apply re_fecha_rango in Hin.
  destruct r; [|done]. case_match eqn:Hc; [|done]. simplify_eq.
  apply andb_true_iff in Hc as [H1 H2]. apply Z.leb_le in H1, H2. lia.
Qed.

(** The first ten characters of [isoformat d] are read back as [d]. *)
Lemma re_m_cifras mes r :
  (1 ≤ mes ≤ 12)%Z →
  ∃ l, re_m (dos_cifras mes (String "-" r)) = (mes, String "-" r) :: l.
Proof.
  intros H.
  assert (Hc : (mes = 1 ∨ mes = 2 ∨ mes = 3 ∨ mes = 4 ∨ mes = 5 ∨ mes = 6 ∨ mes = 7 ∨ mes = 8 ∨ mes = 9 ∨ mes = 10 ∨ mes = 11 ∨ mes = 12)%Z) by lia.
  destruct_or!; subst; by eexists.
Qed.

Lemma re_d_cifras dia :
  (1 ≤ dia ≤ 31)%Z →
  ∃ l, re_d (dos_cifras dia EmptyString) = (dia, EmptyString) :: l.
Proof.
  intros H.
  assert (Hc : (dia = 1 ∨ dia = 2 ∨ dia = 3 ∨ dia = 4 ∨ dia = 5 ∨ dia = 6 ∨ dia = 7 ∨ dia = 8 ∨ dia = 9 ∨ dia = 10 ∨ dia = 11 ∨ dia = 12 ∨ dia = 13 ∨ dia = 14 ∨ dia = 15 ∨ dia = 16 ∨ dia = 17 ∨ dia = 18 ∨ dia = 19 ∨ dia = 20 ∨ dia = 21 ∨ dia = 22 ∨ dia = 23 ∨ dia = 24 ∨ dia = 25 ∨ dia = 26 ∨ dia = 27 ∨ dia = 28 ∨ dia = 29 ∨ dia = 30 ∨ dia = 31)%Z) by lia.
  destruct_or!; subst; by eexists.
Qed.

Lemma tras_guion_guion r : tras_guion (String "-" r) = [r].
Proof. done. Qed.

Lemma bind_cons_list {A B} (f : A → list B) x l : (x :: l) ≫= f = f x ++ (l ≫= f).
Proof. done. Qed.

Lemma dias_del_mes_max año mes : (dias_del_mes año mes ≤ 31)%Z.
Proof. unfold dias_del_mes. repeat case_match; lia. Qed.

Lemma strptime_isoformat año mes dia :
  (1 ≤ año ≤ 9999)%Z → (1 ≤ mes ≤ 12)%Z → (1 ≤ dia ≤ dias_del_mes año mes)%Z →
  strptime (substring 0 10 (isoformat (año, mes, dia))) = Some (año, mes, dia).
Proof.
  intros Ha Hm Hd. pose proof (dias_del_mes_max año mes) as Hmax.
  destruct (re_m_cifras mes (dos_cifras dia EmptyString)) as [lm Hlm]; [done|].
  destruct (re_d_cifras dia) as [ld Hld]; [lia|].
  unfold strptime, re_fecha, isoformat, cuatro_cifras.
  unfold dos_cifras at 1.
  cbn [substring]. rewrite !digito_cifra.
  replace (1000 * ((año / 1000) mod 10) + 100 * ((año / 100) mod 10) +
           10 * ((año / 10) mod 10) + año mod 10)%Z with año by lia.
  change (substring 0 5 _) with (dos_cifras mes (String "-" (dos_cifras dia EmptyString))).
  rewrite tras_guion_guion, bind_cons_list, Hlm, bind_cons_list.
  cbv beta iota. rewrite tras_guion_guion, bind_cons_list, Hld, bind_cons_list.
  cbn [app].
  rewrite (proj2 (andb_true_iff _ _)); [done|].
  split; apply Z.leb_le; lia.
Qed.

(** * The properties of the specification *)

Lemma bien_formado_b_ok g : bien_formado_b g = true → bien_formado g.
Proof.
  unfold bien_formado_b. intros [Hk Hh]%andb_true_iff.
  split; [|by apply es_heap_b_ok].
  apply orb_true_iff in Hk as [Hk|Hk]; [exists Tupla|exists Lista];
    apply Forall_forall; intros t Ht; apply list_elem_of_In in Ht;
    rewrite forallb_forall in Hk; by apply (bool_decide_eq_true_1 _), Hk.
Qed.

Lemma tarea_le_campos a b a' b' :
  campos_de a = campos_de a' → campos_de b = campos_de b' →
  tarea_le a b → tarea_le a' b'.
Proof. unfold tarea_le, tarea_compare. by intros -> ->. Qed.

Lemma tarea_le_antisym_campos a b :
  tarea_le a b → tarea_le b a → campos_de a = campos_de b.
Proof. apply (es_le_antisym campos_compare). Qed.

(** ** C1: the next executable task *)

(** On a well-formed store [obtener_tarea_mayor_prioridad] raises
    nothing and changes only the heap.  The task it announces has all
    its dependencies among the completed tasks, it is still in the store
    (at the first slot of the heap), and it is the least of the pending
    tasks at that point: below each of them in the order of the heap,
    hence of least priority number.  When it announces none, the store
    is empty and every task that was pending lacked a dependency. *)
Lemma obtener_en_bien_formado g :
  bien_formado g →
  ∃ h' r,
    obtener_tarea_mayor_prioridad g =
      (mk_gestor h' (tareas_completadas g) (archivo g), Ok r) ∧
    match r with
    | Some t =>
      (∀ dep, dep ∈ dependencias t → dep ∈ tareas_completadas g) ∧
      h' !! 0 = Some t ∧
      (∀ x, x ∈ h' → tarea_le t x ∧ (prioridad t ≤ prioridad x)%Z)
    | None =>
      h' = [] ∧
      Forall (λ t, ¬ ∀ dep, dep ∈ dependencias t → dep ∈ tareas_completadas g) (heap g)
    end.
Proof.
  intros Hg.
  destruct (obtener_spec g Hg) as (h' & r & Hr & Hp & [_ Hh'] & Hret & Hres).
  exists h', r. split; [done|]. destruct r as [t|].
  - destruct Hres as [Ht He]. split; [by apply ejecutable_spec|]. split; [done|].
    intros x Hx. assert (Hle : tarea_le t x) by (by eapply es_heap_minimo).
    split; [done|]. by apply clave_le_prioridad, tarea_le_clave.
  - split; [done|]. subst h'. rewrite app_nil_r in Hp. rewrite Hp.
    eapply Forall_impl; [exact Hret|]. intros t [He _] Hex.
    apply ejecutable_spec in Hex. congruence.
Qed.

(** C1 fails on the store that a refused addition leaves.  The manager
    starts on the file of a previous run, which holds the task ["a"] of
    priority 5; the addition of ["b"] with priority 1 raises [TypeError]
    and leaves ["b"] behind ["a"] in the heap array.  On that store
    [obtener_tarea_mayor_prioridad] announces ["a"], of priority 5,
    while ["b"], of priority 1 and with no dependency, is pending. *)
Theorem C1_obtener_tras_anadir_fallido :
  let a := mk_tarea Lista 5 "2025-01-01T00:00:00" "a" [] in
  let b := mk_tarea Tupla 1 "2025-01-01T00:00:00" "b" [] in
  let g := (añadir_tarea gestor_cargado "b" (PyInt 1) "2025-01-01" []).1 in
  nuevo_gestor (Some (Tareas documento_a)) = (gestor_cargado, Ok tt) ∧
  (añadir_tarea gestor_cargado "b" (PyInt 1) "2025-01-01" []).2 = Raise TypeError ∧
  heap g = [a; b] ∧
  obtener_tarea_mayor_prioridad g = (g, Ok (Some a)) ∧
  ejecutable (tareas_completadas g) b = true ∧
  (prioridad b < prioridad a)%Z.
Proof. split_and!; vm_compute; reflexivity. Qed.

(** ** C2 and C7: the tasks that the search drops *)

Lemma heappop_submseteq h : (heappop tarea_lt h).1 ⊆+ h.
Proof.
  pose proof (heappop_perm tarea_lt h) as Hp. destruct h as [|t h]; [by rewrite Hp|].
  destruct Hp as [Hp _]. rewrite Hp at 2. by apply submseteq_cons.
Qed.

(** The loop in any state of the heap: what it pops, and when it
    stops. *)
Lemma obtener_loop_general fuel h completadas retiradas :
  length h ≤ fuel →
  ∃ nuevas,
    (obtener_loop fuel h completadas retiradas).1.2 = retiradas ++ nuevas ∧
    h ≡ₚ nuevas ++ (obtener_loop fuel h completadas retiradas).1.1 ∧
    Forall (λ d, ejecutable completadas d = false) nuevas ∧
    (∀ t, h !! 0 = Some t → ejecutable completadas t = false → nuevas !! 0 = Some t) ∧
    match (obtener_loop fuel h completadas retiradas).2 with
    | Ok (Some t) =>
      (obtener_loop fuel h completadas retiradas).1.1 !! 0 = Some t ∧
      ejecutable completadas t = true
    | Ok None => (obtener_loop fuel h completadas retiradas).1.1 = []
    | Raise _ => nuevas ≠ []
    end.
Proof.
  revert h retiradas. induction fuel as [|fuel IH]; intros h retiradas Hf.
  { destruct h; [|simpl in Hf; lia]. exists []. simpl. by rewrite app_nil_r. }
  destruct h as [|t h0].
  { exists []. simpl. by rewrite app_nil_r. }
  cbn [obtener_loop]. destruct (ejecutable completadas t) eqn:He.
  { exists []. simpl. rewrite app_nil_r. split_and!; try done. congruence. }
  pose proof (heappop_perm tarea_lt (t :: h0)) as [Hp Hok].
  destruct (heappop tarea_lt (t :: h0)) as [h1 [r|e]] eqn:Hr; cbn [fst snd] in *.
  - rewrite (Hok r eq_refl) in *.
    destruct (IH h1 (retiradas ++ [t])) as (nuevas & Hret & Hp' & Hn & _ & Hres).
    { apply Permutation_length in Hp. simpl in *. lia. }
    exists (t :: nuevas). rewrite Hret, <- app_assoc.
    split; [done|]. split; [rewrite Hp; simpl; by rewrite <- Hp'|].
    split; [by constructor|]. split; [by intros t' [= <-] _|].
    by destruct (obtener_loop _ _ _ _).2 as [[?|]|?].
  - exists [t]. simpl.
    split; [done|]. split; [done|]. split; [by repeat constructor|].
    split; [by intros t' [= <-] _|done].
Qed.

Lemma completar_loop_submseteq fuel h n encontrada nuevas completadas :
  match completar_loop fuel h n encontrada nuevas completadas with
  | (h', _, Raise _) => h' ⊆+ h
  | (_, _, Ok (_, nuevas')) =>
    campos_de <$> nuevas' ⊆+ campos_de <$> (nuevas ++ h)
  end.
Proof.
  revert h encontrada nuevas completadas.
  induction fuel as [|fuel IH]; intros h encontrada nuevas completadas.
  - destruct h; simpl; [by rewrite app_nil_r|].
    rewrite fmap_app. by apply submseteq_inserts_r.
  - destruct h as [|t h0]; [simpl; by rewrite app_nil_r|].
    cbn [completar_loop].
    pose proof (heappop_submseteq (t :: h0)) as Hs.
    pose proof (heappop_perm tarea_lt (t :: h0)) as [Hp Hok].
    destruct (heappop tarea_lt (t :: h0)) as [h1 [r|e]]; cbn [fst snd] in *; [|done].
    rewrite (Hok r eq_refl) in *.
    case_decide.
    + specialize (IH h1 true nuevas ({[n]} ∪ completadas)).
      destruct (completar_loop _ h1 _ _ _ _) as [[h' c'] [[e' nv]|e']].
      * etrans; [exact IH|]. rewrite !fmap_app.
        apply submseteq_skips_l. by apply fmap_submseteq.
      * by etrans.
    + specialize (IH h1 encontrada (nuevas ++ [a_tupla t]) completadas).
      destruct (completar_loop _ h1 _ _ _ _) as [[h' c'] [[e' nv]|e']].
      * etrans; [exact IH|]. rewrite <- app_assoc, !fmap_app.
        apply submseteq_skips_l. rewrite <- fmap_app. cbn [app].
        rewrite (fmap_cons campos_de (a_tupla t)), campos_a_tupla.
        rewrite <- (fmap_cons campos_de t). apply fmap_submseteq.
        by apply Permutation_submseteq.
      * by etrans.
Qed.

(** No call but [añadir_tarea] puts a task in the heap, in any state
    of the store and also when the call raises. *)
Lemma ejecutar_submseteq g op :
  campos_de <$> heap (ejecutar g op) ⊆+ campos_de <$> heap g.
Proof.
  destruct op as [|n|]; simpl; [done| |].
  - unfold completar_tarea.
    pose proof (completar_loop_submseteq (length (heap g)) (heap g) n false []
                  (tareas_completadas g)) as Hs.
    destruct (completar_loop _ _ _ _ _ _) as [[h c] [[e nv]|e]]; simpl in *.
    + pose proof (heapify_perm tarea_lt nv) as Hp.
      destruct (heapify tarea_lt nv) as [h' [[]|e']]; simpl in *.
      * pose proof (guardar_heap (mk_gestor h' c (archivo g))) as [Hg _].
        destruct (guardar_tareas _) as [g' [[]|e']]; simpl in *;
          rewrite Hg; simpl; by rewrite Hp.
      * by rewrite Hp.
    + by apply fmap_submseteq.
  - unfold obtener_tarea_mayor_prioridad.
    destruct (obtener_loop_general (length (heap g)) (heap g) (tareas_completadas g) [])
      as (nuevas & _ & Hp & _); [done|].
    destruct (obtener_loop _ _ _ _) as [[h ret] r]; simpl in *.
    apply fmap_submseteq. rewrite Hp. by apply submseteq_inserts_l.
Qed.

Lemma ejecutar_todas_submseteq g ops :
  campos_de <$> heap (foldl ejecutar g ops) ⊆+ campos_de <$> heap g.
Proof.
  revert g. induction ops as [|op ops IH]; intros g; simpl; [done|].
  etrans; [apply IH|apply ejecutar_submseteq].
Qed.

Lemma ejecutar_todas_sub g ops :
  campos_de <$> heap (foldl ejecutar g ops) ⊆ campos_de <$> heap g.
Proof. intros x Hx. eapply elem_of_submseteq; [exact Hx|apply ejecutar_todas_submseteq]. Qed.

(** The tasks dropped by the search are gone from the heap it leaves. *)
Lemma retiradas_ausentes g d :
  bien_formado g → d ∈ retiradas_por_obtener g →
  campos_de d ∉ campos_de <$> heap (obtener_tarea_mayor_prioridad g).1.
Proof.
  intros Hg Hd.
  destruct (obtener_spec g Hg) as (h' & r & Hr & Hp & [_ Hh'] & Hret & Hres).
  rewrite Hr. simpl. intros Hx. apply list_elem_of_fmap in Hx as (x & Hcx & Hx).
  eapply Forall_forall in Hret as [He Hmin]; [|exact Hd].
  destruct r as [t|]; [|subst h'; by apply elem_of_nil in Hx].
  destruct Hres as [Ht Het].
  assert (Htx : tarea_le t x) by (by eapply es_heap_minimo).
  assert (Hdt : tarea_le d t).
  { apply Hmin. apply list_elem_of_lookup. by exists 0. }
  assert (Htd : tarea_le t d) by (by eapply tarea_le_campos).
  rewrite (ejecutable_campos _ d t) in He; [congruence|].
  by apply tarea_le_antisym_campos.
Qed.

(** The same in any state in which no two pending tasks are equal. *)
Lemma retiradas_ausentes_NoDup g d :
  NoDup (campos_de <$> heap g) → d ∈ retiradas_por_obtener g →
  campos_de d ∉ campos_de <$> heap (obtener_tarea_mayor_prioridad g).1.
Proof.
  intros Hnd Hd. unfold retiradas_por_obtener, obtener_tarea_mayor_prioridad in *.
  destruct (obtener_loop_general (length (heap g)) (heap g) (tareas_completadas g) [])
    as (nuevas & Hret & Hp & _); [done|].
  destruct (obtener_loop _ _ _ _) as [[h ret] r]; simpl in *. subst ret.
  rewrite Hp, fmap_app in Hnd. apply NoDup_app in Hnd as (_ & Hdis & _).
  apply Hdis. apply list_elem_of_fmap. by exists d.
Qed.

(** C2. In every state of the store, the tasks that
    [obtener_tarea_mayor_prioridad] pops are exactly what the heap
    loses.  Each of them lacks a dependency; the task at the head of the
    heap is popped when it lacks one, and the search does not stop at
    such a task (unless a comparison raises, and then the task it was at
    is popped all the same).  Calls that add no task put nothing back:
    the heap they leave, which is what [mostrar_tareas_pendientes]
    lists, holds no more than the heap the search left.  So a popped
    task is not in the store afterwards, nor in any later list; this
    is said for the task as a value when no two pending tasks are equal,
    or when the store is well formed. *)
Theorem C2_retiradas_no_vuelven g ops :
  heap g ≡ₚ retiradas_por_obtener g ++ heap (obtener_tarea_mayor_prioridad g).1 ∧
  Forall (λ d, ejecutable (tareas_completadas g) d = false)
         (retiradas_por_obtener g) ∧
  (∀ t, heap g !! 0 = Some t → ejecutable (tareas_completadas g) t = false →
        retiradas_por_obtener g !! 0 = Some t) ∧
  (∀ t, heap (obtener_tarea_mayor_prioridad g).1 !! 0 = Some t →
        ejecutable (tareas_completadas g) t = false →
        ∃ e, (obtener_tarea_mayor_prioridad g).2 = Raise e) ∧
  campos_de <$> heap (foldl ejecutar (obtener_tarea_mayor_prioridad g).1 ops) ⊆+
    campos_de <$> heap (obtener_tarea_mayor_prioridad g).1 ∧
  mostrar_tareas_pendientes (foldl ejecutar (obtener_tarea_mayor_prioridad g).1 ops) ≡ₚ
    heap (foldl ejecutar (obtener_tarea_mayor_prioridad g).1 ops) ∧
  (NoDup (campos_de <$> heap g) ∨ bien_formado g →
   ∀ d, d ∈ retiradas_por_obtener g →
     (d ∉ heap (obtener_tarea_mayor_prioridad g).1) ∧
     (campos_de d ∉
       campos_de <$> heap (foldl ejecutar (obtener_tarea_mayor_prioridad g).1 ops)) ∧
     campos_de d ∉
       (campos_de <$> mostrar_tareas_pendientes
                        (foldl ejecutar (obtener_tarea_mayor_prioridad g).1 ops))).
Proof.
  assert (Hau : NoDup (campos_de <$> heap g) ∨ bien_formado g →
            ∀ d, d ∈ retiradas_por_obtener g →
              campos_de d ∉ campos_de <$> heap (obtener_tarea_mayor_prioridad g).1).
  { intros [Hnd|Hg] d Hd;
      [by apply retiradas_ausentes_NoDup|by apply retiradas_ausentes]. }
  unfold retiradas_por_obtener, obtener_tarea_mayor_prioridad in *.
  destruct (obtener_loop_general (length (heap g)) (heap g) (tareas_completadas g) [])
    as (nuevas & Hret & Hp & Hn & Hcab & Hres); [done|].
  destruct (obtener_loop _ _ _ _) as [[h ret] r] eqn:Hr. cbn [fst snd] in *.
  simpl in Hret. subst ret.
  split; [done|]. split; [done|]. split; [done|]. split.
  { intros t Ht He. destruct r as [[t'|]|e]; [|by subst h|by exists e].
    destruct Hres as [Ht' He']. simpl in Ht. congruence. }
  split; [apply ejecutar_todas_submseteq|].
  split; [apply merge_sort_perm|].
  intros Hg d Hd. specialize (Hau Hg d Hd). split_and!.
  - intros Hx. apply Hau. apply list_elem_of_fmap. by exists d.
  - intros Hx. by apply Hau, (ejecutar_todas_sub _ ops).
  - unfold mostrar_tareas_pendientes. rewrite merge_sort_perm.
    intros Hx. by apply Hau, (ejecutar_todas_sub _ ops).
Qed.

(** In the store of the three tasks, ["B"] waits for ["A"] and is at
    the head: the search pops it, and it is in no later list. *)
Lemma C2_witness :
  retiradas_por_obtener gestor_AB = [registro peticion_B] ∧
  ∀ d, d ∈ retiradas_por_obtener gestor_AB →
    (d ∉ heap (obtener_tarea_mayor_prioridad gestor_AB).1) ∧
    (campos_de d ∉
      campos_de <$> heap (foldl ejecutar (obtener_tarea_mayor_prioridad gestor_AB).1
                            [OpCompletar "A"; OpObtener; OpMostrar])) ∧
    campos_de d ∉
      (campos_de <$> mostrar_tareas_pendientes
                       (foldl ejecutar (obtener_tarea_mayor_prioridad gestor_AB).1
                          [OpCompletar "A"; OpObtener; OpMostrar])).
Proof.
  split; [vm_compute; reflexivity|].
  apply (C2_retiradas_no_vuelven gestor_AB [OpCompletar "A"; OpObtener; OpMostrar]).
  right. apply bien_formado_b_ok. vm_compute. reflexivity.
Defined.

(** C7. [obtener_tarea_mayor_prioridad] writes nothing: the file and the
    set of completed tasks are as before the call, whatever the state.
    So when the file held the heap before the call (and the store was
    well formed), every task the call drops is still in the file and no
    longer in the heap. *)
Theorem C7_obtener_no_guarda g :
  archivo (obtener_tarea_mayor_prioridad g).1 = archivo g ∧
  tareas_completadas (obtener_tarea_mayor_prioridad g).1 = tareas_completadas g ∧
  (bien_formado g → archivo g = Some (Tareas (json_dump (heap g))) →
   ∀ d, d ∈ retiradas_por_obtener g →
     campos_de d ∈ tareas_del_archivo (archivo (obtener_tarea_mayor_prioridad g).1) ∧
     campos_de d ∉ json_dump (heap (obtener_tarea_mayor_prioridad g).1)).
Proof.
  assert (Ha : archivo (obtener_tarea_mayor_prioridad g).1 = archivo g).
  { unfold obtener_tarea_mayor_prioridad. by destruct (obtener_loop _ _ _ _) as [[??]?]. }
  split; [done|]. split.
  { unfold obtener_tarea_mayor_prioridad. by destruct (obtener_loop _ _ _ _) as [[??]?]. }
  intros Hg Hf d Hd. rewrite Ha, Hf. simpl. split.
  - destruct (obtener_spec g Hg) as (h' & r & Hr & Hp & _).
    unfold json_dump. apply list_elem_of_fmap. exists d. split; [done|].
    rewrite Hp. apply elem_of_app. by left.
  - by apply retiradas_ausentes.
Qed.

(** ** C3: the list of pending tasks after a series of additions *)






(** ** C4: saving and loading *)

Lemma campos_a_lista t : campos_de (a_lista t) = campos_de t.
Proof. by destruct t. Qed.

Lemma json_load_dump h : json_load (json_dump h) = a_lista <$> h.
Proof. unfold json_load, json_dump. by rewrite <- list_fmap_compose. Qed.

Lemma es_heap_fmap (f : tarea → tarea) h :
  (∀ t, campos_de (f t) = campos_de t) → es_heap h → es_heap (f <$> h).
Proof.
  intros Hf Hh i j x y Hi Hj. rewrite !list_lookup_fmap.
  destruct (h !! i) as [x'|] eqn:Hx; [|done].
  destruct (h !! j) as [y'|] eqn:Hy; [|done].
  simpl. intros [= <-] [= <-].
  apply (tarea_le_campos x' y'); [by rewrite Hf..|]. by apply (Hh i j).
Qed.

(** For a store whose heap array is a heap, with priorities that
    [json] can write, saving the tasks and starting a new manager on
    the file raises nothing and gives a store with the same tasks,
    position by position, in the heap and in the list of
    [mostrar_tareas_pendientes] (as the four fields of each task: what
    was a tuple is a list after the load). *)
Lemma guardar_y_cargar_heap g :
  es_heap (heap g) → prioridades_cortas (json_dump (heap g)) = true →
  ∃ g1 g',
    guardar_tareas g = (g1, Ok tt) ∧
    nuevo_gestor (archivo g1) = (g', Ok tt) ∧
    campos_de <$> heap g' = campos_de <$> heap g ∧
    campos_de <$> mostrar_tareas_pendientes g' =
      campos_de <$> mostrar_tareas_pendientes g.
Proof.
  intros Hh Hc. rewrite (guardar_cortas g Hc). eexists _, _. split; [done|].
  unfold nuevo_gestor, cargar_tareas. cbn [archivo]. rewrite Hc.
  rewrite json_load_dump.
  rewrite (heapify_tarea_id Lista).
  - split; [done|]. unfold mostrar_tareas_pendientes. simpl.
    assert (Hl : ∀ l : list tarea, campos_de <$> (a_lista <$> l) = campos_de <$> l).
    { intros l. rewrite <- list_fmap_compose. apply list_fmap_ext.
      intros _ t _. apply campos_a_lista. }
    split; [apply Hl|].
    rewrite merge_sort_fmap; [apply Hl|]. by intros [].
  - apply Forall_fmap, Forall_forall. by intros [] _.
  - apply es_heap_fmap; [apply campos_a_lista|done].
Qed.

(** C4 fails on a store that refused additions have left.  The manager
    starts on a file with the task ["b"] and is asked for ["a"], ["c"]
    and ["e"], of the same priority and date: the first two calls raise
    [TypeError] and leave their tuple in the heap array, the third
    succeeds.  The array [b, a, c, e] is no heap.  It is saved without
    error and listed as [b, a, c, e]; a manager started on the file
    that was saved lists [a, b, c, e]. *)
Theorem C4_guardar_y_cargar_tras_fallo :
  (nuevo_gestor (Some (Tareas documento_b))).2 = Ok tt ∧
  nombre <$> heap gestor_bace = ["b"; "a"; "c"; "e"]%string ∧
  ¬ es_heap (heap gestor_bace) ∧
  (guardar_tareas gestor_bace).2 = Ok tt ∧
  nombre <$> mostrar_tareas_pendientes gestor_bace = ["b"; "a"; "c"; "e"]%string ∧
  (nuevo_gestor (archivo (guardar_tareas gestor_bace).1)).2 = Ok tt ∧
  nombre <$> mostrar_tareas_pendientes
               (nuevo_gestor (archivo (guardar_tareas gestor_bace).1)).1 =
    ["a"; "b"; "c"; "e"]%string.
Proof.
  split_and!; try (vm_compute; reflexivity).
  intros Hh.
  specialize (Hh 0 1 (mk_tarea Lista 1 "2025-05-01T00:00:00" "b" [])
                (mk_tarea Tupla 1 "2025-05-01T00:00:00" "a" [])).
  assert (Hle : tarea_le (mk_tarea Lista 1 "2025-05-01T00:00:00" "b" [])
                  (mk_tarea Tupla 1 "2025-05-01T00:00:00" "a" [])).
  { apply Hh; [lia|by left|vm_compute; reflexivity|vm_compute; reflexivity]. }
  vm_compute in Hle. discriminate.
Qed.

(** ** C5: the checks of [añadir_tarea] *)

Lemma strip_en_blanco s : str_bool (strip s) = negb (en_blanco s).
Proof.
  unfold strip. induction s as [|c s IH]; [done|].
  cbn [lstrip en_blanco]. destruct (isspace c) eqn:Hc; [done|].
  cbn [rstrip]. rewrite Hc. by destruct (rstrip s).
Qed.

(** C5. Whatever the state: a name that is empty or blank, a priority
    that is not an [int], a date that [strptime] rejects, each makes
    [añadir_tarea] raise [ValueError] and leave the state as it was.
    The checks run in this order, and the first that fails gives the
    error its message. *)
Theorem C5_validacion g nombre prioridad fecha_vencimiento dependencias :
  (en_blanco nombre = true →
   añadir_tarea g nombre prioridad fecha_vencimiento dependencias =
     (g, Raise (ValueError NombreVacio))) ∧
  ((∀ z, prioridad ≠ PyInt z) →
   ∃ o, añadir_tarea g nombre prioridad fecha_vencimiento dependencias =
          (g, Raise (ValueError o)) ∧
        (en_blanco nombre = false → o = PrioridadNoEntera)) ∧
  (strptime fecha_vencimiento = None →
   ∃ o, añadir_tarea g nombre prioridad fecha_vencimiento dependencias =
          (g, Raise (ValueError o)) ∧
        (en_blanco nombre = false → (∃ z, prioridad = PyInt z) → o = FechaInvalida)).
Proof.
  unfold añadir_tarea. rewrite strip_en_blanco, negb_involutive.
  split_and!.
  - by intros ->.
  - intros Hp. destruct (en_blanco nombre); [by eexists|].
    destruct prioridad as [z| | |]; [by destruct (Hp z)|by eexists..].
  - intros ->. destruct (en_blanco nombre); [by eexists|].
    destruct prioridad as [z| | |]; eexists; (split; [done|]); try done;
      by intros _ [z' [=]].
Qed.

(** The three boundary calls of the specification. *)
Lemma C5_ejemplos g :
  añadir_tarea g "" (PyInt 1) "2025-01-01" [] = (g, Raise (ValueError NombreVacio)) ∧
  añadir_tarea g "x" (PyFloat 3 (-1)) "2025-01-01" [] =
    (g, Raise (ValueError PrioridadNoEntera)) ∧
  añadir_tarea g "x" (PyInt 1) "not-a-date" [] = (g, Raise (ValueError FechaInvalida)).
Proof. done. Qed.

(** ** C6 and C9: completing a task *)

Lemma a_tupla_id t : clase t = Tupla → a_tupla t = t.
Proof. destruct t. simpl. by intros ->. Qed.

Lemma nombres_tras_completar n (h h' : list tarea) :
  h' ≡ₚ a_tupla <$> filter (λ t, nombre t ≠ n) h → n ∉ nombre <$> h'.
Proof.
  intros Hp Hn. rewrite Hp in Hn.
  apply list_elem_of_fmap in Hn as (t & Hn & Ht).
  apply list_elem_of_fmap in Ht as (t' & -> & Ht').
  apply list_elem_of_filter in Ht' as [Hne _]. by rewrite nombre_a_tupla in Hn.
Qed.

Lemma campos_tras_completar n (h h' : list tarea) :
  h' ≡ₚ a_tupla <$> filter (λ t, nombre t ≠ n) h →
  campos_de <$> h' ≡ₚ campos_de <$> filter (λ t, nombre t ≠ n) h.
Proof.
  intros ->. rewrite <- list_fmap_compose.
  erewrite list_fmap_ext; [done|]. intros _ t _. apply campos_a_tupla.
Qed.

(** What [completar_tarea] does to the heap and to the ledger on a
    store whose tasks can be compared, whether or not the save at its
    end succeeds; and what it returns when the save succeeds. *)
Lemma completar_en_misma_clase g n :
  misma_clase (heap g) →
  (n ∉ nombre <$> heap (completar_tarea g n).1) ∧
  campos_de <$> heap (completar_tarea g n).1 ≡ₚ
    campos_de <$> filter (λ t, nombre t ≠ n) (heap g) ∧
  Forall (λ t, clase t = Tupla) (heap (completar_tarea g n).1) ∧
  es_heap (heap (completar_tarea g n).1) ∧
  tareas_completadas (completar_tarea g n).1 =
    (if bool_decide (n ∈ nombre <$> heap g)
     then {[n]} ∪ tareas_completadas g else tareas_completadas g) ∧
  (completar_tarea g n).2 =
    (if prioridades_cortas (json_dump (heap (completar_tarea g n).1))
     then Ok (bool_decide (n ∈ nombre <$> heap g))
     else Raise (ValueError EnteroDemasiadoLargo)) ∧
  archivo (completar_tarea g n).1 =
    (if prioridades_cortas (json_dump (heap (completar_tarea g n).1))
     then Some (Tareas (json_dump (heap (completar_tarea g n).1)))
     else Some Ilegible).
Proof.
  intros Hg. destruct (completar_spec g n Hg) as (h' & -> & Hp & HT & Hh).
  unfold guardar_tareas. cbn [heap tareas_completadas].
  destruct (prioridades_cortas (json_dump h')) eqn:Hc; cbn [fst snd heap tareas_completadas archivo];
    rewrite Hc; (split_and!; [by eapply nombres_tras_completar
                            |by apply campos_tras_completar|done..]).
Qed.

(** On a store whose tasks can be compared and whose priorities [json]
    can write, with a task of the name [n]: a first call of
    [completar_tarea] reports the task found, removes it and puts [n] in
    the set of completed tasks; a second call right after raises
    nothing and reports the task not found; after it [n] is still in the
    set, which has not changed, and the pending tasks are the same up to
    their order. *)
Lemma completar_dos_veces g n :
  misma_clase (heap g) → prioridades_cortas (json_dump (heap g)) = true →
  n ∈ nombre <$> heap g →
  ∃ g1 g2,
    completar_tarea g n = (g1, Ok true) ∧
    (n ∉ nombre <$> heap g1) ∧
    n ∈ tareas_completadas g1 ∧
    campos_de <$> heap g1 ≡ₚ campos_de <$> filter (λ t, nombre t ≠ n) (heap g) ∧
    completar_tarea g1 n = (g2, Ok false) ∧
    n ∈ tareas_completadas g2 ∧
    tareas_completadas g2 = tareas_completadas g1 ∧
    campos_de <$> heap g2 ≡ₚ campos_de <$> heap g1.
Proof.
  intros Hg Hc Hn.
  destruct (completar_en_misma_clase g n Hg) as (Hn1 & Hp1 & HT1 & Hh1 & Hl1 & Hr1 & _).
  assert (Hc1 : prioridades_cortas (json_dump (heap (completar_tarea g n).1)) = true).
  { eapply prioridades_cortas_sub; [|exact Hc]. unfold json_dump. intros c.
    rewrite Hp1. intros (t & -> & Ht)%list_elem_of_fmap.
    apply list_elem_of_filter in Ht as [_ Ht]. apply list_elem_of_fmap. by exists t. }
  rewrite Hc1, (bool_decide_eq_true_2 _ Hn) in Hr1.
  rewrite (bool_decide_eq_true_2 _ Hn) in Hl1.
  destruct (completar_tarea g n) as [g1 r1]. cbn [fst snd] in *. subst r1.
  assert (Hg1 : misma_clase (heap g1)) by (by exists Tupla).
  destruct (completar_en_misma_clase g1 n Hg1) as (_ & Hp2 & _ & _ & Hl2 & Hr2 & _).
  assert (Hf : filter (λ t, nombre t ≠ n) (heap g1) = heap g1).
  { apply filter_todos. apply Forall_forall. intros t Ht Hnt. apply Hn1.
    apply list_elem_of_fmap. by exists t. }
  rewrite Hf in Hp2.
  assert (Hc2 : prioridades_cortas (json_dump (heap (completar_tarea g1 n).1)) = true).
  { unfold json_dump. by rewrite (prioridades_cortas_perm _ _ Hp2). }
  rewrite Hc2, (bool_decide_eq_false_2 _ Hn1) in Hr2.
  rewrite (bool_decide_eq_false_2 _ Hn1) in Hl2.
  destruct (completar_tarea g1 n) as [g2 r2] eqn:E2. cbn [fst snd] in *. subst r2.
  assert (Hen : n ∈ tareas_completadas g1).
  { rewrite Hl1. apply elem_of_union. left. by apply elem_of_singleton. }
  exists g1, g2. split; [done|]. split; [done|]. split; [done|]. split; [done|].
  split; [done|]. split; [by rewrite Hl2|]. by split.
Qed.

(** C6 fails on the store that a refused addition leaves.  The manager
    starts on a file with the tasks ["x"] and ["z"]; the addition of
    ["y"] raises [TypeError] and leaves its tuple in the heap array.
    There [completar_tarea "x"] raises [TypeError] in its first
    [heappop], between the tuple and a list: the task ["x"] is gone
    from the heap, its name is not in the set of completed tasks, and
    the file still holds it. *)
Theorem C6_completar_en_mezcla :
  (nuevo_gestor (Some (Tareas documento_xz))).2 = Ok tt ∧
  (añadir_tarea (nuevo_gestor (Some (Tareas documento_xz))).1
                "y" (PyInt 1) "2025-01-01" []).2 = Raise TypeError ∧
  nombre <$> heap gestor_xzy = ["x"; "z"; "y"]%string ∧
  (completar_tarea gestor_xzy "x").2 = Raise TypeError ∧
  nombre <$> heap (completar_tarea gestor_xzy "x").1 = ["z"; "y"]%string ∧
  tareas_completadas (completar_tarea gestor_xzy "x").1 = ∅ ∧
  archivo (completar_tarea gestor_xzy "x").1 = Some (Tareas documento_xz).
Proof. split_and!; vm_compute; reflexivity. Qed.

(** C9 fails on the store that a refused addition leaves.  The manager
    starts on a file with two tasks named ["n"]; the addition of ["x"]
    raises [TypeError] and leaves its tuple in the heap array.  There
    [completar_tarea "n"] raises [TypeError] in its first [heappop]:
    one task named ["n"] is still pending, and ["n"] is not in the set
    of completed tasks. *)
Theorem C9_completar_duplicados_en_mezcla :
  (nuevo_gestor (Some (Tareas documento_nn))).2 = Ok tt ∧
  (añadir_tarea (nuevo_gestor (Some (Tareas documento_nn))).1
                "x" (PyInt 1) "2025-01-01" []).2 = Raise TypeError ∧
  nombre <$> heap gestor_nnx = ["n"; "n"; "x"]%string ∧
  (completar_tarea gestor_nnx "n").2 = Raise TypeError ∧
  nombre <$> heap (completar_tarea gestor_nnx "n").1 = ["n"; "x"]%string ∧
  tareas_completadas (completar_tarea gestor_nnx "n").1 = ∅.
Proof. split_and!; vm_compute; reflexivity. Qed.

(** ** C8: the date that is stored *)

(** C8. When the name passes and [strptime] reads the date [d], the
    heap gains one task, whose date field is [isoformat d]: a string of
    the shape [YYYY-MM-DDT00:00:00] whose first ten characters
    [strptime] reads back as [d].  (This holds also when [heappush]
    raises: the task is in the list by then.)  When the call succeeds
    the file holds the new heap. *)
Theorem C8_fecha_normalizada g nombre p fecha_vencimiento dependencias d :
  en_blanco nombre = false → strptime fecha_vencimiento = Some d →
  heap (añadir_tarea g nombre (PyInt p) fecha_vencimiento dependencias).1 ≡ₚ
    mk_tarea Tupla p (isoformat d) nombre dependencias :: heap g ∧
  forma_iso (isoformat d) = true ∧
  strptime (substring 0 10 (isoformat d)) = Some d ∧
  ((añadir_tarea g nombre (PyInt p) fecha_vencimiento dependencias).2 = Ok tt →
   archivo (añadir_tarea g nombre (PyInt p) fecha_vencimiento dependencias).1 =
     Some (Tareas
             (json_dump
                (heap (añadir_tarea g nombre (PyInt p) fecha_vencimiento
                         dependencias).1)))).
Proof.
  intros Hn Hd. unfold añadir_tarea. rewrite strip_en_blanco, Hn, Hd. simpl.
  pose proof (heappush_perm tarea_lt (heap g)
                (mk_tarea Tupla p (isoformat d) nombre dependencias)) as Hp.
  assert (Hiso : strptime (substring 0 10 (isoformat d)) = Some d).
  { destruct d as [[año mes] dia].
    apply strptime_rango in Hd as (? & ? & ?). by apply strptime_isoformat. }
  destruct (heappush tarea_lt (heap g) _) as [h [[]|e]]; simpl in *.
  - unfold guardar_tareas. cbn [heap con_heap].
    destruct (prioridades_cortas (json_dump h)); cbn [fst snd heap archivo].
    + split; [done|]. split; [apply forma_iso_isoformat|]. by split.
    + split; [done|]. split; [apply forma_iso_isoformat|]. by split.
  - split; [done|]. split; [apply forma_iso_isoformat|]. by split.
Qed.

Lemma C8_witness :
  heap (añadir_tarea gestor_AB "D" (PyInt 4) "2025-1-5" ["A"]).1 ≡ₚ
    mk_tarea Tupla 4 (isoformat (2025, 1, 5)%Z) "D" ["A"] :: heap gestor_AB ∧
  forma_iso (isoformat (2025, 1, 5)%Z) = true ∧
  strptime (substring 0 10 (isoformat (2025, 1, 5)%Z)) = Some (2025, 1, 5)%Z ∧
  ((añadir_tarea gestor_AB "D" (PyInt 4) "2025-1-5" ["A"]).2 = Ok tt →
   archivo (añadir_tarea gestor_AB "D" (PyInt 4) "2025-1-5" ["A"]).1 =
     Some (Tareas
             (json_dump
                (heap (añadir_tarea gestor_AB "D" (PyInt 4) "2025-1-5" ["A"]).1)))).
Proof.
  apply (C8_fecha_normalizada gestor_AB "D" 4 "2025-1-5" ["A"] (2025, 1, 5)%Z);
    reflexivity.
Defined.

(** The date a call wrote as [2025-1-5] is stored with two digits for
    the month and the day. *)
Lemma C8_ejemplo : isoformat (2025, 1, 5)%Z = "2025-01-05T00:00:00"%string.
Proof. reflexivity. Qed.

(** ** C10: the heap invariant *)

(** What keeps the invariant: the load at start-up, [completar_tarea],
    [obtener_tarea_mayor_prioridad] (and [mostrar_tareas_pendientes],
    which does not touch the heap) on a well-formed store, and
    [añadir_tarea] on a store of tuples. *)
Lemma operaciones_conservan_heap g :
  bien_formado (nuevo_gestor (archivo g)).1 ∧
  (bien_formado g →
   (∀ n, bien_formado (completar_tarea g n).1) ∧
   bien_formado (obtener_tarea_mayor_prioridad g).1 ∧
   (Forall (λ t, clase t = Tupla) (heap g) →
    ∀ nombre prioridad fecha_vencimiento dependencias,
      bien_formado (añadir_tarea g nombre prioridad fecha_vencimiento dependencias).1)).
Proof.
  split.
  - assert (Hv : bien_formado (mk_gestor [] ∅ (archivo g))).
    { split; [exists Lista; constructor|apply es_heap_nil]. }
    unfold nuevo_gestor.
    pose proof (cargar_spec (mk_gestor [] ∅ (archivo g))) as Hs.
    unfold cargar_tareas in *. cbn [archivo] in *.
    destruct (archivo g) as [[d|]|]; [|done|].
    + destruct (prioridades_cortas d); [|done].
      destruct (Hs eq_refl) as (h' & -> & _ & HL & Hh).
      split; [by exists Lista|done].
    + destruct (Hs I) as (h' & -> & _ & HL & Hh). split; [by exists Lista|done].
  - intros Hg. split_and!.
    + intros n.
      destruct (completar_en_misma_clase g n (proj1 Hg)) as (_ & _ & HT & Hh & _).
      split; [by exists Tupla|done].
    + destruct (obtener_spec g Hg) as (h' & r & -> & _ & Hg' & _). done.
    + intros HT nombre prioridad fecha_vencimiento dependencias.
      unfold añadir_tarea. destruct (negb _) eqn:Hn; [done|].
      destruct prioridad as [p| | |]; try done.
      destruct (strptime fecha_vencimiento) as [d|] eqn:Hd; [|done].
      destruct (añadir_spec g nombre p fecha_vencimiento dependencias d)
        as (h' & Hr & Hp & HT' & Hh'); [done|by apply negb_false_iff|done|].
      unfold añadir_tarea in Hr. rewrite Hn, Hd in Hr. rewrite Hr.
      pose proof (guardar_heap (mk_gestor h' (tareas_completadas g) (archivo g)))
        as [Hgh _].
      split; [exists Tupla|]; rewrite Hgh; [done|]. apply Hh'. by destruct Hg.
Qed.

(** C10 fails for [añadir_tarea] after a load.  The manager starts on
    the file of a previous run, which held one task of priority 5: the
    store is well formed, its task is a list.  Adding a task of priority
    1 raises [TypeError] in [heappush], which has appended the tuple
    and cannot order it against the list: the heap array is left with
    the task of priority 5 first and the task of priority 1 second. *)
Theorem C10_anadir_tras_cargar :
  bien_formado gestor_cargado ∧
  añadir_tarea gestor_cargado "b" (PyInt 1) "2025-01-01" [] =
    (con_heap gestor_cargado
       [mk_tarea Lista 5 "2025-01-01T00:00:00" "a" [];
        mk_tarea Tupla 1 "2025-01-01T00:00:00" "b" []],
     Raise TypeError) ∧
  tarea_lt (mk_tarea Tupla 1 "2025-01-01T00:00:00" "b" [])
           (mk_tarea Lista 5 "2025-01-01T00:00:00" "a" []) = Raise TypeError ∧
  ¬ es_heap (heap (añadir_tarea gestor_cargado "b" (PyInt 1) "2025-01-01" []).1) ∧
  ¬ misma_clase (heap (añadir_tarea gestor_cargado "b" (PyInt 1) "2025-01-01" []).1).
Proof.
  split_and!.
  - apply bien_formado_b_ok. vm_compute. reflexivity.
  - vm_compute. reflexivity.
  - by apply tarea_lt_mixto.
  - intros Hh.
    specialize (Hh 0 1 (mk_tarea Lista 5 "2025-01-01T00:00:00" "a" [])
                  (mk_tarea Tupla 1 "2025-01-01T00:00:00" "b" [])).
    assert (Hle : tarea_le (mk_tarea Lista 5 "2025-01-01T00:00:00" "a" [])
                    (mk_tarea Tupla 1 "2025-01-01T00:00:00" "b" [])).
    { apply Hh; [lia|by left|vm_compute; reflexivity|vm_compute; reflexivity]. }
    vm_compute in Hle. discriminate.
  - intros [k Hk]. vm_compute in Hk.
    apply Forall_cons in Hk as [H1 Hk]. apply Forall_cons in Hk as [H2 _]. congruence.
Qed.

(** After that call the store answers wrongly: the task of priority 5
    is announced as the next one while the task of priority 1, which
    waits for nothing, is pending. *)
Lemma C10_consecuencia :
  (obtener_tarea_mayor_prioridad
     (añadir_tarea gestor_cargado "b" (PyInt 1) "2025-01-01" []).1).2 =
    Ok (Some (mk_tarea Lista 5 "2025-01-01T00:00:00" "a" [])) ∧
  heap (obtener_tarea_mayor_prioridad
          (añadir_tarea gestor_cargado "b" (PyInt 1) "2025-01-01" []).1).1 !! 1 =
    Some (mk_tarea Tupla 1 "2025-01-01T00:00:00" "b" []).
Proof. split; vm_compute; reflexivity. Qed.

(** A later call that succeeds saves such an array.  Started on a file
    with the task ["b"], the manager is asked for ["a"], ["c"], ["e"],
    all of the same priority and date: the first two calls raise
    [TypeError], the third succeeds and writes the file.  The list of
    pending tasks then starts with ["b"], and with ["a"] after a restart
    on that file. *)
Lemma C10_consecuencia_guardar :
  let g := añadir_todas
             (nuevo_gestor
                (Some (Tareas [(1%Z, "2025-05-01T00:00:00", "b", [])]%string))).1
             [mk_peticion "a" 1 "2025-05-01" []; mk_peticion "c" 1 "2025-05-01" [];
              mk_peticion "e" 1 "2025-05-01" []] in
  archivo g = Some (Tareas (json_dump (heap g))) ∧
  nombre <$> mostrar_tareas_pendientes g = ["b"; "a"; "c"; "e"]%string ∧
  nombre <$> mostrar_tareas_pendientes (nuevo_gestor (archivo g)).1 =
    ["a"; "b"; "c"; "e"]%string.
Proof. split_and!; vm_compute; reflexivity. Qed.

(** * Further properties of the code *)

(** ** The sort *)

(** X1. [merge_sort] sorts any list of tasks: the result holds exactly
    the tasks of the list, ascending by the key [(prioridad, fecha)],
    and tasks with the same key keep the order they had in the list. *)
Theorem X1_merge_sort_correcto lista :
  merge_sort lista ≡ₚ lista ∧
  ordenada (merge_sort lista) ∧
  mismo_orden_por_clave lista (merge_sort lista).
Proof.
  split; [apply merge_sort_perm|]. split; [apply merge_sort_ordenada|].
  apply merge_sort_estable.
Qed.

(** X2. [mezclar] on two lists in order gives a list in order that holds
    exactly the tasks of both; among tasks of the same key, those of
    the left list come first, each side in its own order. *)
Theorem X2_mezclar_ordenadas izquierda derecha :
  ordenada izquierda → ordenada derecha →
  mezclar izquierda derecha ≡ₚ izquierda ++ derecha ∧
  ordenada (mezclar izquierda derecha) ∧
  ∀ k, filter (λ t, clave t = k) (mezclar izquierda derecha) =
       filter (λ t, clave t = k) izquierda ++ filter (λ t, clave t = k) derecha.
Proof.
  intros Hi Hd. split; [apply mezclar_perm|]. split; [by apply mezclar_ordenada|].
  intros k. by apply mezclar_estable.
Qed.

Lemma X2_witness :
  let izquierda := [registro peticion_B; registro peticion_C] in
  let derecha := [registro peticion_B; registro peticion_A] in
  mezclar izquierda derecha ≡ₚ izquierda ++ derecha ∧
  ordenada (mezclar izquierda derecha) ∧
  ∀ k, filter (λ t, clave t = k) (mezclar izquierda derecha) =
       filter (λ t, clave t = k) izquierda ++ filter (λ t, clave t = k) derecha.
Proof.
  apply (X2_mezclar_ordenadas [registro peticion_B; registro peticion_C]
           [registro peticion_B; registro peticion_A]);
    repeat constructor.
Defined.

Lemma mezclar_app l r : ordenada (l ++ r) → mezclar l r = l ++ r.
Proof.
  revert r. induction l as [|x l IH]; intros r Ho; [done|].
  destruct r as [|y r]; [by rewrite mezclar_nil_r, app_nil_r|].
  rewrite mezclar_cons.
  apply StronglySorted_inv in Ho as [Ho Hx].
  rewrite (proj1 (Forall_forall _ _) Hx y).
  - simpl. f_equal. by apply IH.
  - apply elem_of_app. right. apply elem_of_cons. by left.
Qed.

Lemma merge_sort_rec_ordenada fuel lista :
  length lista ≤ fuel → ordenada lista → merge_sort_rec fuel lista = lista.
Proof.
  revert lista. induction fuel as [|fuel IH]; intros lista Hf Ho;
    cbn [merge_sort_rec]; [by case_decide|].
  case_decide; [done|].
  rewrite <- (take_drop (length lista / 2) lista) in Ho.
  rewrite !IH.
  - rewrite mezclar_app by done. apply take_drop.
  - rewrite length_drop. lia.
  - by apply StronglySorted_app_1_r in Ho.
  - rewrite length_take. lia.
  - by apply StronglySorted_app_1_l in Ho.
Qed.

(** X3. [merge_sort] leaves a list that is in order as it is, so sorting
    twice is sorting once. *)
Theorem X3_merge_sort_idempotente lista :
  merge_sort (merge_sort lista) = merge_sort lista.
Proof.
  unfold merge_sort at 1. apply merge_sort_rec_ordenada; [done|].
  apply merge_sort_ordenada.
Qed.



(** ** Start-up and additions *)

(** A start that succeeds. *)
Lemma nuevo_gestor_ok f g :
  nuevo_gestor f = (g, Ok tt) →
  ∃ h, g = mk_gestor h ∅ f ∧
    campos_de <$> h ≡ₚ tareas_del_archivo f ∧
    Forall (λ t, clase t = Lista) h ∧ es_heap h.
Proof.
  unfold nuevo_gestor. intros Hr.
  pose proof (cargar_spec (mk_gestor [] ∅ f)) as Hs.
  unfold cargar_tareas in *. cbn [archivo] in *.
  destruct f as [[d|]|]; [|done|].
  - destruct (prioridades_cortas d); [|done].
    destruct (Hs eq_refl) as (h & Hr' & Hp & HL & Hh). rewrite Hr' in Hr.
    injection Hr as <-. by exists h.
  - destruct (Hs I) as (h & Hr' & Hp & HL & Hh). rewrite Hr' in Hr.
    injection Hr as <-. by exists h.
Qed.


(** X6. On a store whose tasks are all tuples, [añadir_tarea] with a
    name that is not blank, an [int] priority and a date that parses
    puts exactly the new task in the heap, whose tasks are still all
    tuples, and a heap stays a heap.  When the new priority and the
    pending ones have at most 4300 digits the call succeeds and the
    file holds the new heap; otherwise the task is in the heap all the
    same, the call raises the [ValueError] of [json.dump] and the file
    is left unreadable. *)
Theorem X6_anadir_en_tuplas g nombre p fecha_vencimiento dependencias d :
  Forall (λ t, clase t = Tupla) (heap g) →
  en_blanco nombre = false → strptime fecha_vencimiento = Some d →
  ∃ h',
    h' ≡ₚ mk_tarea Tupla p (isoformat d) nombre dependencias :: heap g ∧
    Forall (λ t, clase t = Tupla) h' ∧
    (es_heap (heap g) → es_heap h') ∧
    añadir_tarea g nombre (PyInt p) fecha_vencimiento dependencias =
      (if negb (demasiados_digitos p) && prioridades_cortas (json_dump (heap g))
       then (mk_gestor h' (tareas_completadas g) (Some (Tareas (json_dump h'))),
             Ok tt)
       else (mk_gestor h' (tareas_completadas g) (Some Ilegible),
             Raise (ValueError EnteroDemasiadoLargo))).
Proof.
  intros HT Hn Hd.
  destruct (añadir_spec g nombre p fecha_vencimiento dependencias d)
    as (h' & Hr & Hp & HT' & Hh'); [done|by rewrite strip_en_blanco, Hn|done|].
  exists h'. split; [done|]. split; [done|]. split; [done|].
  rewrite Hr. unfold guardar_tareas. cbn [heap tareas_completadas].
  replace (prioridades_cortas (json_dump h'))
    with (negb (demasiados_digitos p) && prioridades_cortas (json_dump (heap g)));
    [done|].
  unfold json_dump. by rewrite (prioridades_cortas_perm _ _ (fmap_Permutation campos_de _ _ Hp)).
Qed.

Lemma X6_witness :
  ∃ h',
    h' ≡ₚ mk_tarea Tupla 0 (isoformat (2025, 12, 31)%Z) "D" ["A"] :: heap gestor_AB ∧
    Forall (λ t, clase t = Tupla) h' ∧
    (es_heap (heap gestor_AB) → es_heap h') ∧
    añadir_tarea gestor_AB "D" (PyInt 0) "2025-12-31" ["A"] =
      (if negb (demasiados_digitos 0) && prioridades_cortas (json_dump (heap gestor_AB))
       then (mk_gestor h' (tareas_completadas gestor_AB) (Some (Tareas (json_dump h'))),
             Ok tt)
       else (mk_gestor h' (tareas_completadas gestor_AB) (Some Ilegible),
             Raise (ValueError EnteroDemasiadoLargo))).
Proof.
  apply (X6_anadir_en_tuplas gestor_AB "D" 0 "2025-12-31" ["A"] (2025, 12, 31)%Z).
  - vm_compute. repeat constructor.
  - reflexivity.
  - reflexivity.
Defined.

Lemma añadir_sobre_listas g nombre p fecha_vencimiento dependencias d :
  heap g ≠ [] → Forall (λ t, clase t = Lista) (heap g) →
  en_blanco nombre = false → strptime fecha_vencimiento = Some d →
  añadir_tarea g nombre (PyInt p) fecha_vencimiento dependencias =
    (con_heap g (heap g ++ [mk_tarea Tupla p (isoformat d) nombre dependencias]),
     Raise TypeError).
Proof.
  intros Hne HL Hn Hd. unfold añadir_tarea. rewrite strip_en_blanco, Hn, Hd. simpl.
  set (t := mk_tarea Tupla p (isoformat d) nombre dependencias).
  unfold heappush, siftdown.
  rewrite decide_False by (rewrite length_app; simpl; lia).
  destruct (length (heap g)) as [|n] eqn:Hlen.
  { by destruct (heap g). }
  cbn [siftdown_loop]. rewrite decide_True by lia.
  rewrite <- Hlen. rewrite list_lookup_middle by done.
  destruct (lookup_lt_is_Some_2 (heap g) ((length (heap g) - 1) / 2)) as [u Hu]; [lia|].
  rewrite lookup_app_l by lia. rewrite Hu.
  rewrite tarea_lt_mixto; [done|].
  eapply Forall_lookup_1 in HL; [|exact Hu]. simpl in HL. by rewrite HL.
Qed.

(** X7. A manager started on a file that holds at least one task
    cannot take a new task: every call of [añadir_tarea] that passes
    the checks raises [TypeError], with the new tuple left at the end of
    the heap array and the file as it was. *)
Theorem X7_anadir_tras_cargar doc g nombre p fecha_vencimiento dependencias d :
  nuevo_gestor (Some (Tareas doc)) = (g, Ok tt) →
  doc ≠ [] → en_blanco nombre = false → strptime fecha_vencimiento = Some d →
  añadir_tarea g nombre (PyInt p) fecha_vencimiento dependencias =
    (mk_gestor
       (heap g ++ [mk_tarea Tupla p (isoformat d) nombre dependencias])
       ∅ (Some (Tareas doc)),
     Raise TypeError).
Proof.
  intros Hg Hdoc Hn Hd.
  destruct (nuevo_gestor_ok _ _ Hg) as (h & -> & Hp & HL & Hh).
  rewrite (añadir_sobre_listas _ nombre p fecha_vencimiento dependencias d); try done.
  simpl. intros ->. simpl in Hp. apply Permutation_nil_l in Hp. done.
Qed.

Lemma X7_witness :
  añadir_tarea gestor_cargado "b" (PyInt 1) "2025-01-01" [] =
    (mk_gestor
       (heap gestor_cargado ++ [mk_tarea Tupla 1 (isoformat (2025, 1, 1)%Z) "b" []])
       ∅ (Some (Tareas documento_a)),
     Raise TypeError).
Proof.
  apply (X7_anadir_tras_cargar documento_a gestor_cargado "b" 1 "2025-01-01" []
           (2025, 1, 1)%Z).
  - vm_compute. reflexivity.
  - discriminate.
  - reflexivity.
  - reflexivity.
Defined.

(** ** Completing a task *)

Lemma campos_a_tupla_fmap (l : list tarea) :
  campos_de <$> (a_tupla <$> l) = campos_de <$> l.
Proof.
  rewrite <- list_fmap_compose. apply list_fmap_ext. intros _ t _. apply campos_a_tupla.
Qed.

(** X8. On a store whose tasks are all tuples or all lists,
    [completar_tarea] never raises in its loop.  The heap it leaves
    holds the tasks of another name with their fields, all as tuples and
    in heap order, and the name is put in the ledger exactly when a
    pending task has it.  When the priorities left have at most 4300
    digits the call reports whether a task was found and the file is
    rewritten with the heap, also when no task had the name; otherwise
    the call raises the [ValueError] of [json.dump] after these changes
    and leaves the file unreadable. *)
Theorem X8_completar_tarea g n :
  misma_clase (heap g) →
  ∃ h',
    campos_de <$> h' ≡ₚ campos_de <$> filter (λ t, nombre t ≠ n) (heap g) ∧
    Forall (λ t, clase t = Tupla) h' ∧ es_heap h' ∧
    completar_tarea g n =
      (if prioridades_cortas (json_dump h') then
         (mk_gestor h'
            (if bool_decide (n ∈ nombre <$> heap g)
             then {[n]} ∪ tareas_completadas g else tareas_completadas g)
            (Some (Tareas (json_dump h'))),
          Ok (bool_decide (n ∈ nombre <$> heap g)))
       else
         (mk_gestor h'
            (if bool_decide (n ∈ nombre <$> heap g)
             then {[n]} ∪ tareas_completadas g else tareas_completadas g)
            (Some Ilegible),
          Raise (ValueError EnteroDemasiadoLargo))).
Proof.
  intros Hk. destruct (completar_spec g n Hk) as (h' & Hr & Hp & HT & Hh).
  exists h'. split; [by rewrite Hp, campos_a_tupla_fmap|]. split; [done|].
  split; [done|]. rewrite Hr. unfold guardar_tareas. cbn [heap tareas_completadas].
  by destruct (prioridades_cortas (json_dump h')).
Qed.

Lemma X8_witness :
  ∃ h',
    campos_de <$> h' ≡ₚ
      campos_de <$> filter (λ t, nombre t ≠ "b") (heap gestor_cargado) ∧
    Forall (λ t, clase t = Tupla) h' ∧ es_heap h' ∧
    completar_tarea gestor_cargado "b" =
      (if prioridades_cortas (json_dump h') then
         (mk_gestor h'
            (if bool_decide ("b" ∈ nombre <$> heap gestor_cargado)
             then {["b"]} ∪ tareas_completadas gestor_cargado
             else tareas_completadas gestor_cargado)
            (Some (Tareas (json_dump h'))),
          Ok (bool_decide ("b" ∈ nombre <$> heap gestor_cargado)))
       else
         (mk_gestor h'
            (if bool_decide ("b" ∈ nombre <$> heap gestor_cargado)
             then {["b"]} ∪ tareas_completadas gestor_cargado
             else tareas_completadas gestor_cargado)
            (Some Ilegible),
          Raise (ValueError EnteroDemasiadoLargo))).
Proof.
  apply (X8_completar_tarea gestor_cargado "b").
  exists Lista. vm_compute. repeat constructor.
Defined.

(** X9. A call of [completar_tarea], with any name and whether or not
    its save succeeds, makes the store fit for additions again: the
    heap after a valid [añadir_tarea] that follows holds the new task
    and the tasks that were not completed, as tuples in heap order, and
    the addition raises no [TypeError]: it succeeds and writes the file
    when the priorities have at most 4300 digits, and raises the
    [ValueError] of [json.dump] otherwise.  So it is on a store just
    loaded from a file, where the addition alone raises [TypeError]. *)
Theorem X9_completar_y_anadir g n nuevo p fecha_vencimiento dependencias d :
  misma_clase (heap g) →
  en_blanco nuevo = false → strptime fecha_vencimiento = Some d →
  ∃ h',
    campos_de <$> h' ≡ₚ
      (p, isoformat d, nuevo, dependencias) ::
      (campos_de <$> filter (λ t, nombre t ≠ n) (heap g)) ∧
    Forall (λ t, clase t = Tupla) h' ∧ es_heap h' ∧
    añadir_tarea (completar_tarea g n).1 nuevo (PyInt p) fecha_vencimiento
                 dependencias =
      (if prioridades_cortas (json_dump h')
       then (mk_gestor h' (tareas_completadas (completar_tarea g n).1)
                       (Some (Tareas (json_dump h'))), Ok tt)
       else (mk_gestor h' (tareas_completadas (completar_tarea g n).1)
                       (Some Ilegible), Raise (ValueError EnteroDemasiadoLargo))).
Proof.
  intros Hk Hn Hd.
  destruct (completar_en_misma_clase g n Hk) as (_ & Hp & HT & Hh & _).
  destruct (añadir_spec (completar_tarea g n).1 nuevo p fecha_vencimiento
              dependencias d) as (h' & Hr & Hp' & HT' & Hh');
    [done|by rewrite strip_en_blanco, Hn|done|].
  exists h'. split; [|split; [done|split; [by apply Hh'|]]].
  - rewrite Hp'. rewrite fmap_cons. by rewrite Hp.
  - rewrite Hr. unfold guardar_tareas. cbn [heap tareas_completadas].
    by destruct (prioridades_cortas (json_dump h')).
Qed.

Lemma X9_witness :
  ∃ h',
    campos_de <$> h' ≡ₚ
      (1%Z, isoformat (2025, 1, 1)%Z, "b", []) ::
      (campos_de <$> filter (λ t, nombre t ≠ "otra") (heap gestor_cargado)) ∧
    Forall (λ t, clase t = Tupla) h' ∧ es_heap h' ∧
    añadir_tarea (completar_tarea gestor_cargado "otra").1 "b" (PyInt 1)
                 "2025-01-01" [] =
      (if prioridades_cortas (json_dump h')
       then (mk_gestor h' (tareas_completadas (completar_tarea gestor_cargado "otra").1)
                       (Some (Tareas (json_dump h'))), Ok tt)
       else (mk_gestor h' (tareas_completadas (completar_tarea gestor_cargado "otra").1)
                       (Some Ilegible), Raise (ValueError EnteroDemasiadoLargo))).
Proof.
  apply (X9_completar_y_anadir gestor_cargado "otra" "b" 1 "2025-01-01" []
           (2025, 1, 1)%Z).
  - exists Lista. vm_compute. repeat constructor.
  - reflexivity.
  - reflexivity.
Defined.

(** ** The next task *)

Lemma obtener_loop_listo fuel h completadas retiradas t :
  h !! 0 = Some t → ejecutable completadas t = true →
  obtener_loop fuel h completadas retiradas = (h, retiradas, Ok (Some t)).
Proof.
  intros Ht He. destruct h as [|t' h]; [done|]. injection Ht as ->.
  destruct fuel; simpl; by rewrite He.
Qed.

(** X10. On a well-formed store a second call of
    [obtener_tarea_mayor_prioridad] right after the first gives the
    same answer and changes nothing: the first call has dropped every
    task it will ever drop with this ledger. *)
Theorem X10_obtener_dos_veces g :
  bien_formado g →
  obtener_tarea_mayor_prioridad (obtener_tarea_mayor_prioridad g).1 =
    obtener_tarea_mayor_prioridad g.
Proof.
  intros Hg. destruct (obtener_spec g Hg) as (h' & r & Hr & _ & _ & _ & Hres).
  rewrite Hr. cbn [fst]. unfold obtener_tarea_mayor_prioridad at 1.
  cbn [heap con_heap tareas_completadas].
  destruct r as [t|].
  - destruct Hres as [Ht He].
    rewrite (obtener_loop_listo _ _ _ _ t) by done. done.
  - subst h'. done.
Qed.

Lemma X10_witness :
  obtener_tarea_mayor_prioridad (obtener_tarea_mayor_prioridad gestor_AB).1 =
    obtener_tarea_mayor_prioridad gestor_AB.
Proof.
  apply (X10_obtener_dos_veces gestor_AB).
  apply bien_formado_b_ok. vm_compute. reflexivity.
Defined.

Lemma ejecutable_vacio t : ejecutable ∅ t = true ↔ dependencias t = [].
Proof.
  rewrite ejecutable_spec. split.
  - intros H. destruct (dependencias t) as [|dep l]; [done|].
    exfalso. eapply (not_elem_of_empty (C:=gset string)), (H dep). by left.
  - intros -> dep Hd. by apply elem_of_nil in Hd.
Qed.

(** X11. The ledger of completed tasks is not saved.  So after a
    start that succeeds (there is no file, or the file holds a document
    of tasks that [json.load] reads), the first call of
    [obtener_tarea_mayor_prioridad] raises nothing and announces only a
    task of the file without dependencies; the tasks it drops all have
    dependencies; and when it announces none, every task of the file has
    dependencies and the heap is left empty. *)
Theorem X11_obtener_tras_arrancar f g :
  nuevo_gestor f = (g, Ok tt) →
  ∃ h' r,
    obtener_tarea_mayor_prioridad g = (mk_gestor h' ∅ f, Ok r) ∧
    Forall (λ t, dependencias t ≠ []) (retiradas_por_obtener g) ∧
    match r with
    | Some t => dependencias t = [] ∧ campos_de t ∈ tareas_del_archivo f
    | None => h' = [] ∧ Forall (λ c, c.2 ≠ []) (tareas_del_archivo f)
    end.
Proof.
  intros Hf. destruct (nuevo_gestor_ok f g Hf) as (h & -> & Hp & HL & Hh).
  destruct (obtener_spec (mk_gestor h ∅ f)) as (h' & r & Hr & Hp' & _ & Hret & Hres).
  { split; [by exists Lista|done]. }
  exists h', r. split; [done|]. cbn [heap tareas_completadas] in *.
  assert (Hdrop : Forall (λ t, dependencias t ≠ [])
                    (retiradas_por_obtener (mk_gestor h ∅ f))).
  { eapply Forall_impl; [exact Hret|]. intros t [He _] Hd.
    apply ejecutable_vacio in Hd. congruence. }
  split; [done|]. destruct r as [t|].
  - destruct Hres as [Ht He]. split; [by apply ejecutable_vacio|].
    rewrite <- Hp. apply list_elem_of_fmap. exists t. split; [done|].
    rewrite Hp'. apply elem_of_app. right. by eapply list_elem_of_lookup_2.
  - split; [done|]. subst h'. rewrite app_nil_r in Hp'.
    rewrite <- Hp, Hp'. apply Forall_fmap. eapply Forall_impl; [exact Hdrop|].
    by intros [? ? ? ? ?].
Qed.

Lemma X11_witness :
  ∃ h' r,
    obtener_tarea_mayor_prioridad gestor_cargado =
      (mk_gestor h' ∅ (Some (Tareas documento_a)), Ok r) ∧
    Forall (λ t, dependencias t ≠ []) (retiradas_por_obtener gestor_cargado) ∧
    match r with
    | Some t =>
      dependencias t = [] ∧
      campos_de t ∈ tareas_del_archivo (Some (Tareas documento_a))
    | None =>
      h' = [] ∧ Forall (λ c, c.2 ≠ []) (tareas_del_archivo (Some (Tareas documento_a)))
    end.
Proof.
  apply (X11_obtener_tras_arrancar (Some (Tareas documento_a)) gestor_cargado).
  vm_compute. reflexivity.
Defined.

(** ** The ledger of completed tasks *)

Lemma completar_loop_completadas fuel h n encontrada nuevas completadas :
  (completar_loop fuel h n encontrada nuevas completadas).1.2 = completadas ∨
  (completar_loop fuel h n encontrada nuevas completadas).1.2 = {[n]} ∪ completadas ∧
  n ∈ nombre <$> h.
Proof.
  revert h encontrada nuevas completadas.
  induction fuel as [|fuel IH]; intros h encontrada nuevas completadas.
  { destruct h; by left. }
  destruct h as [|t h0]; [by left|]. cbn [completar_loop].
  pose proof (heappop_sub (t :: h0)) as Hs.
  pose proof (heappop_ok_sub (t :: h0)) as Ht.
  destruct (heappop tarea_lt (t :: h0)) as [h1 [r|e]]; simpl in Hs; [|by left].
  specialize (Ht h1 r eq_refl). case_decide as Hn.
  - right. split; [|apply list_elem_of_fmap; by exists r].
    destruct (IH h1 true nuevas ({[n]} ∪ completadas)) as [->| [-> _]]; [done|].
    by rewrite (assoc_L (∪)), union_idemp_L.
  - destruct (IH h1 encontrada (nuevas ++ [a_tupla r]) completadas) as [->| [-> Hin]];
      [by left|right]. split; [done|].
    apply list_elem_of_fmap in Hin as (y & -> & Hy).
    apply list_elem_of_fmap. exists y. split; [done|]. by apply Hs.
Qed.

(** X12. In every state, also one that makes the call raise, a call
    of a public method never takes a name out of the ledger of
    completed tasks, and the only name that can enter it is the
    argument of [completar_tarea], when a pending task has that name. *)
Theorem X12_completadas_crece g ll :
  tareas_completadas g ⊆ tareas_completadas (atender g ll).1 ∧
  ∀ x, x ∈ tareas_completadas (atender g ll).1 → x ∉ tareas_completadas g →
       ll = LlCompletar x ∧ x ∈ nombre <$> heap g.
Proof.
  assert (Hmismo : ∀ g', tareas_completadas g' = tareas_completadas g →
            tareas_completadas g ⊆ tareas_completadas g' ∧
            ∀ x, x ∈ tareas_completadas g' → x ∉ tareas_completadas g →
                 ll = LlCompletar x ∧ x ∈ nombre <$> heap g).
  { intros g' ->. split; [done|]. by intros x ??. }
  destruct ll as [n p f d| |n|]; cbn [atender].
  - destruct (añadir_tarea g n p f d) as [g' r] eqn:Hr. cbn [fst]. apply Hmismo.
    unfold añadir_tarea in Hr.
    destruct (negb _); [by injection Hr as <- _|].
    destruct p; try by injection Hr as <- _.
    destruct (strptime f); [|by injection Hr as <- _].
    destruct (heappush _ _ _) as [h [[]|e]]; [|by injection Hr as <- _].
    pose proof (guardar_heap (con_heap g h)) as [_ Hl]. rewrite Hr in Hl. done.
  - by apply Hmismo.
  - destruct (completar_tarea g n) as [g' r] eqn:Hr. cbn [fst].
    assert (Hc : tareas_completadas g' =
                 (completar_loop (length (heap g)) (heap g) n false []
                    (tareas_completadas g)).1.2).
    { unfold completar_tarea in Hr.
      destruct (completar_loop _ _ _ _ _ _) as [[h c] [[e nv]|e]].
      - destruct (heapify _ _) as [h' [[]|e']]; [|by injection Hr as <- _].
        pose proof (guardar_heap (mk_gestor h' c (archivo g))) as [_ Hl].
        destruct (guardar_tareas _) as [g'' [[]|e']]; by injection Hr as <- _.
      - by injection Hr as <- _. }
    destruct (completar_loop_completadas (length (heap g)) (heap g) n false []
                (tareas_completadas g)) as [Heq|[Heq Hin]].
    + apply Hmismo. by rewrite Hc.
    + rewrite Hc, Heq. split; [apply union_subseteq_r|].
      intros x Hx Hnx. apply elem_of_union in Hx as [Hx|Hx]; [|done].
      apply elem_of_singleton in Hx as ->. done.
  - destruct (obtener_tarea_mayor_prioridad g) as [g' r] eqn:Hr. cbn [fst].
    apply Hmismo. unfold obtener_tarea_mayor_prioridad in Hr.
    destruct (obtener_loop _ _ _ _) as [[h ret] r']. by injection Hr as <- _.
Qed.

(** ** A session *)






(** ** The dependencies typed by the user *)

Lemma split_coma_no_nil s : split_coma s ≠ [].
Proof.
  induction s as [|c s IH]; [done|]. simpl.
  destruct (Ascii.eqb c ","); [done|]. by destruct (split_coma s).
Qed.

Lemma split_coma_sin_coma s : Forall (λ p, sin_coma p = true) (split_coma s).
Proof.
  induction s as [|c s IH]; [by repeat constructor|]. simpl.
  destruct (Ascii.eqb c ",") eqn:Hc; [by constructor|].
  destruct (split_coma s) as [|p l]; [repeat constructor; simpl; by rewrite Hc|].
  apply Forall_cons in IH as [Hp Hl]. constructor; [|done]. simpl. by rewrite Hc.
Qed.

Lemma split_coma_pieza p s :
  sin_coma p = true →
  split_coma (p ++ String "," s) = p :: split_coma s.
Proof.
  induction p as [|c p IH]; [done|]. simpl.
  intros [Hc Hp]%andb_true_iff. apply negb_true_iff in Hc. rewrite Hc.
  by rewrite IH.
Qed.

Lemma split_coma_una p : sin_coma p = true → split_coma p = [p].
Proof.
  induction p as [|c p IH]; [done|]. simpl.
  intros [Hc Hp]%andb_true_iff. apply negb_true_iff in Hc. rewrite Hc.
  by rewrite IH.
Qed.

Lemma split_coma_concat piezas :
  Forall (λ p, sin_coma p = true) piezas → piezas ≠ [] →
  split_coma (String.concat "," piezas) = piezas.
Proof.
  induction 1 as [|p l Hp Hl IH]; [done|]. intros _.
  destruct l as [|q l]; [by apply split_coma_una|].
  change (String.concat "," (p :: q :: l))
    with (p ++ String "," (String.concat "," (q :: l)))%string.
  rewrite split_coma_pieza by done. by rewrite IH.
Qed.

Lemma concat_split_coma s : String.concat "," (split_coma s) = s.
Proof.
  induction s as [|c s IH]; [done|]. cbn [split_coma].
  destruct (Ascii.eqb_spec c ",") as [->|Hc].
  - pose proof (split_coma_no_nil s). destruct (split_coma s) as [|p l] eqn:Hs; [done|].
    change (String.concat "," (EmptyString :: p :: l))
      with (String "," (String.concat "," (p :: l))).
    by rewrite IH.
  - pose proof (split_coma_no_nil s). destruct (split_coma s) as [|p l] eqn:Hs; [done|].
    destruct l as [|q l]; [simpl in *; by rewrite IH|].
    change (String.concat "," (String c p :: q :: l))
      with (String c (String.concat "," (p :: q :: l))).
    by rewrite IH.
Qed.

Lemma isspace_coma c : isspace c = true → Ascii.eqb c "," = false.
Proof. destruct (Ascii.eqb_spec c ",") as [->|]; [done|done]. Qed.

Lemma en_blanco_sin_coma s : en_blanco s = true → sin_coma s = true.
Proof.
  induction s as [|c s IH]; [done|]. simpl. intros [Hc Hs]%andb_true_iff.
  by rewrite (isspace_coma c Hc), IH.
Qed.

Lemma lstrip_sin_coma s : sin_coma s = true → sin_coma (lstrip s) = true.
Proof.
  induction s as [|c s IH]; [done|]. cbn [lstrip]. destruct (isspace c); [|done].
  simpl. intros [_ ?]%andb_true_iff. by apply IH.
Qed.

Lemma rstrip_sin_coma s : sin_coma s = true → sin_coma (rstrip s) = true.
Proof.
  induction s as [|c s IH]; [done|]. cbn [rstrip sin_coma].
  intros [Hc Hs]%andb_true_iff. specialize (IH Hs).
  destruct (rstrip s) as [|c' r]; [destruct (isspace c); [done|simpl; by rewrite Hc]|].
  change (sin_coma (String c (String c' r)))
    with (negb (Ascii.eqb c ",") && sin_coma (String c' r)).
  by rewrite Hc, IH.
Qed.

Lemma rstrip_idem s : rstrip (rstrip s) = rstrip s.
Proof.
  induction s as [|c s IH]; [done|]. cbn [rstrip].
  destruct (rstrip s) as [|c' r] eqn:Hr.
  - destruct (isspace c) eqn:Hc; [done|]. simpl. by rewrite Hc.
  - cbn [rstrip]. cbn [rstrip] in IH. by rewrite IH.
Qed.

Lemma lstrip_rstrip s : lstrip (rstrip (lstrip s)) = rstrip (lstrip s).
Proof.
  induction s as [|c s IH]; [done|]. cbn [lstrip].
  destruct (isspace c) eqn:Hc; [done|]. cbn [rstrip].
  destruct (rstrip s); [rewrite Hc; simpl; by rewrite Hc|]. simpl. by rewrite Hc.
Qed.

Lemma strip_idem s : strip (strip s) = strip s.
Proof. unfold strip. by rewrite lstrip_rstrip, rstrip_idem. Qed.

(** X14. The dependencies that the driver reads from the line of the
    user are never blank, carry no white space at either end and no
    comma; a line that is empty or blank gives no dependency. *)
Theorem X14_leer_dependencias linea :
  Forall (λ dep, en_blanco dep = false ∧ strip dep = dep ∧ sin_coma dep = true)
         (leer_dependencias linea) ∧
  (en_blanco linea = true → leer_dependencias linea = []).
Proof.
  unfold leer_dependencias. split.
  - apply Forall_fmap, Forall_forall. intros p Hp.
    apply list_elem_of_filter in Hp as [Hb Hp]. unfold compose.
    split_and!.
    + pose proof (strip_en_blanco (strip p)) as H. rewrite strip_idem, Hb in H.
      by destruct (en_blanco (strip p)).
    + apply strip_idem.
    + apply rstrip_sin_coma, lstrip_sin_coma.
      pose proof (split_coma_sin_coma linea) as Hs.
      by eapply Forall_forall in Hs.
  - intros Hb. rewrite split_coma_una by by apply en_blanco_sin_coma.
    rewrite filter_cons_False; [done|]. rewrite strip_en_blanco, Hb. done.
Qed.

(** X15. A line made of pieces separated by commas, each piece a
    name with any white space around it, is read as the names in their
    order. *)
Theorem X15_leer_dependencias_vuelta piezas deps :
  Forall2 (λ pieza dep, sin_coma pieza = true ∧ strip pieza = dep ∧
                        str_bool dep = true) piezas deps →
  leer_dependencias (String.concat "," piezas) = deps.
Proof.
  intros H. unfold leer_dependencias.
  destruct piezas as [|p l]; [by apply Forall2_nil_inv_l in H as ->|].
  rewrite split_coma_concat; [| |done].
  - induction H as [|p' d l' ds (Hc & Hs & Hb) _ IH]; [done|].
    rewrite filter_cons_True by by rewrite Hs. cbn [fmap list_fmap].
    rewrite Hs. f_equal. apply IH.
  - eapply Forall2_Forall_l; [exact H|]. apply Forall_forall. by intros ? _ ? (? & _).
Qed.

Lemma X15_witness :
  leer_dependencias (String.concat "," ["A"; " B "; "tarea C"]) =
    ["A"; "B"; "tarea C"].
Proof.
  apply (X15_leer_dependencias_vuelta ["A"; " B "; "tarea C"] ["A"; "B"; "tarea C"]).
  repeat constructor.
Defined.

(** ** What an addition that passes the checks has stored *)

(** X16. When [añadir_tarea] does not raise [ValueError], the name is
    not blank, the priority is an [int] and the text of the date is a
    day of the calendar; the heap then holds the tasks it had and the
    new tuple, with the date at midnight in ISO form, also when the
    insertion into the heap raises. *)
Theorem X16_anadir_sin_ValueError g nombre prioridad fecha_vencimiento dependencias :
  (∀ o, (añadir_tarea g nombre prioridad fecha_vencimiento dependencias).2 ≠
        Raise (ValueError o)) →
  en_blanco nombre = false ∧
  ∃ p año mes dia,
    prioridad = PyInt p ∧
    strptime fecha_vencimiento = Some (año, mes, dia) ∧
    (1 ≤ año ≤ 9999)%Z ∧ (1 ≤ mes ≤ 12)%Z ∧ (1 ≤ dia ≤ dias_del_mes año mes)%Z ∧
    heap (añadir_tarea g nombre prioridad fecha_vencimiento dependencias).1 ≡ₚ
      mk_tarea Tupla p (isoformat (año, mes, dia)) nombre dependencias :: heap g.
Proof.
  unfold añadir_tarea. rewrite strip_en_blanco, negb_involutive.
  destruct (en_blanco nombre); [intros H; by destruct (H NombreVacio)|].
  destruct prioridad as [p| | |]; try (intros H; by destruct (H PrioridadNoEntera)).
  destruct (strptime fecha_vencimiento) as [[[año mes] dia]|] eqn:Hd;
    [|intros H; by destruct (H FechaInvalida)].
  intros _. split; [done|]. exists p, año, mes, dia.
  destruct (strptime_rango _ _ _ _ Hd) as (? & ? & ?).
  split_and!; try (done || lia).
  pose proof (heappush_perm tarea_lt (heap g)
                (mk_tarea Tupla p (isoformat (año, mes, dia)) nombre dependencias)) as Hp.
  cbv zeta. destruct (heappush _ _ _) as [h [[]|e]]; [|exact Hp].
  by rewrite (proj1 (guardar_heap _)).
Qed.

Lemma X16_witness :
  en_blanco "b" = false ∧
  ∃ p año mes dia,
    PyInt 1 = PyInt p ∧
    strptime "2024-2-29" = Some (año, mes, dia) ∧
    (1 ≤ año ≤ 9999)%Z ∧ (1 ≤ mes ≤ 12)%Z ∧ (1 ≤ dia ≤ dias_del_mes año mes)%Z ∧
    heap (añadir_tarea gestor_cargado "b" (PyInt 1) "2024-2-29" []).1 ≡ₚ
      mk_tarea Tupla p (isoformat (año, mes, dia)) "b" [] :: heap gestor_cargado.
Proof.
  apply (X16_anadir_sin_ValueError gestor_cargado "b" (PyInt 1) "2024-2-29" []).
  intros o. vm_compute. discriminate.
Defined.
